(** * SAL sockets: the asynchronous read-callback engine of [Socket.c]

    A shallow embedding of the WINDOWS build of [Socket.c] (the only build
    in which the callback worker has a body).  Heap-allocated [SAL_Socket]
    structures live in a finite map from addresses to records, the file's
    statics are the fields of [state], and every C function is a computation
    in a small state-and-failure monad [M]. *)

From Stdlib Require Import ZArith Lia.
From stdpp Require Import gmap list.

Open Scope Z_scope.

(** ** Pointers and the socket record *)

(** Addresses are natural numbers, [NULL] is address [0].  Function pointers
    ([SAL_Socket_ReadCallback]) and [void*] values are addresses too. *)
Abbreviation pointer := N (only parsing).

Definition NULL : pointer := 0%N.

(** [struct SAL_Socket] with the five fields [Socket.c] reads and writes.
    [Socket.h] is not part of the sources; [RawSocket] and [LastError] are
    kept as integers. *)
Record SAL_Socket : Type := mkSocket {
  RawSocket : Z;
  Connected : bool;
  LastError : Z;
  ReadCallback : pointer;
  ReadCallbackState : pointer
}.

#[global] Instance SAL_Socket_eq_dec : EqDecision SAL_Socket.
Proof. solve_decision. Defined.

Definition set_RawSocket (v : Z) (s : SAL_Socket) : SAL_Socket :=
  mkSocket v (Connected s) (LastError s) (ReadCallback s) (ReadCallbackState s).

Definition set_Connected (v : bool) (s : SAL_Socket) : SAL_Socket :=
  mkSocket (RawSocket s) v (LastError s) (ReadCallback s) (ReadCallbackState s).

Definition set_LastError (v : Z) (s : SAL_Socket) : SAL_Socket :=
  mkSocket (RawSocket s) (Connected s) v (ReadCallback s) (ReadCallbackState s).

Definition set_ReadCallback (v : pointer) (s : SAL_Socket) : SAL_Socket :=
  mkSocket (RawSocket s) (Connected s) (LastError s) v (ReadCallbackState s).

Definition set_ReadCallbackState (v : pointer) (s : SAL_Socket) : SAL_Socket :=
  mkSocket (RawSocket s) (Connected s) (LastError s) (ReadCallback s) v.

(** ** Program state *)

(** The statics of [Socket.c] and the heap of socket structures.
    [asyncSocketList] holds the items of the [AsyncLinkedList] in insertion
    order; [asyncWorker] is the [SAL_Thread] handle of the last worker
    created; [liveThreads] and [nextThread] are the thread table behind
    [Thread.h] (handles of the threads that have not exited yet, and the
    next handle to hand out); [callerWords] holds the [uint32] objects of
    the caller that the module has written through a pointer, by address
    (they are kept apart from the socket structures). *)
Record state : Type := mkState {
  heap : gmap N SAL_Socket;
  asyncSocketList : list N;
  asyncWorker : nat;
  asyncWorkerRunning : bool;
  winsockInitialized : bool;
  liveThreads : list nat;
  nextThread : nat;
  callerWords : gmap N Z
}.

Definition set_heap (h : gmap N SAL_Socket) (st : state) : state :=
  mkState h (asyncSocketList st) (asyncWorker st) (asyncWorkerRunning st)
          (winsockInitialized st) (liveThreads st) (nextThread st)
          (callerWords st).

Definition set_asyncSocketList (l : list N) (st : state) : state :=
  mkState (heap st) l (asyncWorker st) (asyncWorkerRunning st)
          (winsockInitialized st) (liveThreads st) (nextThread st)
          (callerWords st).

Definition set_asyncWorker (t : nat) (st : state) : state :=
  mkState (heap st) (asyncSocketList st) t (asyncWorkerRunning st)
          (winsockInitialized st) (liveThreads st) (nextThread st)
          (callerWords st).

Definition set_asyncWorkerRunning (b : bool) (st : state) : state :=
  mkState (heap st) (asyncSocketList st) (asyncWorker st) b
          (winsockInitialized st) (liveThreads st) (nextThread st)
          (callerWords st).

Definition set_winsockInitialized (b : bool) (st : state) : state :=
  mkState (heap st) (asyncSocketList st) (asyncWorker st) (asyncWorkerRunning st)
          b (liveThreads st) (nextThread st)
          (callerWords st).

Definition set_threads (l : list nat) (n : nat) (st : state) : state :=
  mkState (heap st) (asyncSocketList st) (asyncWorker st) (asyncWorkerRunning st)
          (winsockInitialized st) l n (callerWords st).

Definition set_callerWords (m : gmap N Z) (st : state) : state :=
  mkState (heap st) (asyncSocketList st) (asyncWorker st) (asyncWorkerRunning st)
          (winsockInitialized st) (liveThreads st) (nextThread st) m.

(** The state at program start: the statics are zero-initialised
    ([asyncWorkerRunning = false], [winsockInitialized = false], an empty
    list), no thread has been created and no word of the caller has been
    written. *)
Definition initial_state (h : gmap N SAL_Socket) : state :=
  mkState h [] 0%nat false false [] 1%nat ∅.

(** ** The monad of C calls *)

(** Ways in which a call does not return normally. *)
Inductive failure : Type :=
| AssertionFailure   (* an [assert] did not hold: the process aborts *)
| AccessViolation    (* a pointer to no live object was dereferenced or called *)
| Blocked.           (* the call waits forever *)

(** A call either returns a value in a new state, or stops in the state it
    had reached. *)
Inductive outcome (A : Type) : Type :=
| Done (a : A) (st : state)
| Failed (e : failure) (st : state).

Arguments Done {A} a st.
Arguments Failed {A} e st.

Definition M (A : Type) : Type := state → outcome A.

Definition ret {A} (a : A) : M A := λ st, Done a st.

Definition bind {A B} (k : A → M B) (m : M A) : M B :=
  λ st, match m st with
        | Done a st' => k a st'
        | Failed e st' => Failed e st'
        end.

#[global] Instance M_ret : MRet M := @ret.
#[global] Instance M_bind : MBind M := @bind.

Definition get : M state := λ st, Done st st.
Definition modify (f : state → state) : M unit := λ st, Done tt (f st).
Definition fail {A} (e : failure) : M A := λ st, Failed e st.

(** [assert(c)] of <assert.h>. *)
Definition assert (c : bool) : M unit :=
  if c then ret tt else fail AssertionFailure.

(** Reading through a socket pointer: [*p]. *)
Definition load (p : pointer) : M SAL_Socket :=
  λ st, match heap st !! p with
        | Some s => Done s st
        | None => Failed AccessViolation st
        end.

(** Writing one field through a socket pointer: [p->field = v]. *)
Definition store (p : pointer) (f : SAL_Socket → SAL_Socket) : M unit :=
  s ← load p;
  modify (λ st, set_heap (<[p := f s]> (heap st)) st).

Definition is_null (p : pointer) : bool := bool_decide (p = NULL).
Definition non_null (p : pointer) : bool := negb (is_null p).

(** ** Collaborators outside [Socket.c] *)

(** Modelled from the spec: the [AsyncLinkedList] of
    <Utilities/AsyncLinkedList.h> is missing from the sources.  The spec's
    Registration Set is "an ordered, mutable collection of Connection
    references; order is insertion order"; [AsyncLinkedList_Initialize]
    gives the empty collection. *)
Definition AsyncLinkedList_Initialize : M unit :=
  modify (set_asyncSocketList []).

(** Modelled from the spec: "releases the Registration Set's storage"; the
    released list has no items. *)
Definition AsyncLinkedList_Uninitialize : M unit :=
  modify (set_asyncSocketList []).

(** Modelled from the spec: the list primitive behind the spec's [Add],
    which "inserts at the tail".  The "if not already present" half of
    [Add] is the test on [ReadCallback] in [SAL_Socket_SetReadCallback];
    the primitive itself appends whatever it is given. *)
Definition AsyncLinkedList_Append (p : pointer) : M unit :=
  modify (λ st, set_asyncSocketList (asyncSocketList st ++ [p]) st).

(** Removal of the first entry equal to [p]. *)
Fixpoint remove_first (p : N) (l : list N) : list N :=
  match l with
  | [] => []
  | q :: l' => if decide (q = p) then l' else q :: remove_first p l'
  end.

(** Modelled from the spec: [Remove] "removes the first matching entry by
    identity, if present". *)
Definition AsyncLinkedList_Remove (p : pointer) : M unit :=
  modify (λ st, set_asyncSocketList (remove_first p (asyncSocketList st)) st).

(** Modelled from the spec: [SAL_Thread_Create] of [Thread.c] (missing from
    the sources) "creates the background task": a new thread with a new
    handle starts running [SAL_Socket_CallbackWorker_Run]. *)
Definition SAL_Thread_Create : M nat :=
  λ st, Done (nextThread st)
             (set_threads (nextThread st :: liveThreads st) (S (nextThread st)) st).

(** Modelled from the spec: [SAL_Thread_Join] of [Thread.c] (missing from
    the sources) "blocks until the background task has observed the flag and
    exited".  The worker's loop is [while (asyncWorkerRunning)], so a live
    worker exits exactly when the flag is down; a thread that is not live
    needs no waiting. *)
Definition SAL_Thread_Join (thread : nat) : M unit :=
  λ st, if bool_decide (thread ∈ liveThreads st) then
          if asyncWorkerRunning st then Failed Blocked st
          else Done tt (set_threads (filter (λ t, t ≠ thread) (liveThreads st))
                                    (nextThread st) st)
        else Done tt st.

(** ** [Socket.c] *)

(** The record [SAL_Socket_Init] leaves behind: it writes all five fields. *)
Definition SAL_Socket_Init_value : SAL_Socket :=
  mkSocket 0 false 0 NULL NULL.

Definition SAL_Socket_Init (socket : pointer) : M unit :=
  store socket (set_RawSocket 0);;
  store socket (set_Connected false);;
  store socket (set_LastError 0);;
  store socket (set_ReadCallback NULL);;
  store socket (set_ReadCallbackState NULL).

Definition SAL_Socket_CallbackWorker_Initialize : M unit :=
  AsyncLinkedList_Initialize;;
  modify (set_asyncWorkerRunning true);;
  t ← SAL_Thread_Create;
  modify (set_asyncWorker t).

Definition SAL_Socket_CallbackWorker_Shutdown : M unit :=
  modify (set_asyncWorkerRunning false);;
  st ← get;
  SAL_Thread_Join (asyncWorker st);;
  AsyncLinkedList_Uninitialize.

Definition SAL_Socket_SetReadCallback (socket callback state : pointer) : M unit :=
  assert (non_null socket);;
  assert (non_null callback);;
  assert (non_null state);;
  st ← get;
  (if negb (asyncWorkerRunning st) then
     SAL_Socket_CallbackWorker_Initialize;;
     modify (set_asyncWorkerRunning true)
   else ret tt);;
  s ← load socket;
  (if is_null (ReadCallback s) then AsyncLinkedList_Append socket else ret tt);;
  store socket (set_ReadCallback callback);;
  store socket (set_ReadCallbackState state).

Definition SAL_Socket_UnsetSocketCallback (socket : pointer) : M unit :=
  assert (non_null socket);;
  s ← load socket;
  if non_null (ReadCallback s) then
    store socket (set_ReadCallback NULL);;
    store socket (set_ReadCallbackState NULL);;
    AsyncLinkedList_Remove socket
  else ret tt.

Definition SAL_Socket_ClearCallbacks : M unit :=
  SAL_Socket_CallbackWorker_Shutdown.

(** ** The operating system *)

(** What the operating system answers during one call (or one cycle of the
    worker): the results of [socket], of [connect] to an address and a
    port, of [accept] on a handle together with the address of the peer it
    reports, of [inet_addr], [getaddrinfo], [bind] and [listen], of [recv]
    and [send] on a handle with a length, the handles [select] reports
    readable, and the content of freshly allocated memory. *)
Record environment : Type := mkEnv {
  socket_result : Z;
  connect_result : Z → Z → Z;
  accept_result : Z → Z;
  accept_address : Z → Z;
  inet_addr_result : Z;
  getaddrinfo_result : Z;
  bind_result : Z;
  listen_result : Z;
  recv : Z → Z → Z;
  send : Z → Z → Z;
  readable : Z → bool;
  fresh_memory : SAL_Socket
}.

(** [INVALID_SOCKET] is [(SOCKET)(~0)] and [SOCKET_ERROR] is [-1] in
    <winsock2.h>; an all-ones word is read as [-1]. *)
Definition INVALID_SOCKET : Z := -1.
Definition SOCKET_ERROR : Z := -1.

(** [INADDR_NONE] of <winsock2.h>. *)
Definition INADDR_NONE : Z := 4294967295.

(** A cast to [uint32]. *)
Definition to_uint32 (z : Z) : Z := z mod 2 ^ 32.

Definition CALLBACK_BUFFER_SIZE : Z := 1024.
Definition FD_SETSIZE : nat := 1024.

(** A [uint8*] argument: null, the static [asyncSocketBuffer], or memory of
    the caller.  The bytes themselves are not modelled. *)
Inductive buffer : Type :=
| NullBuffer
| asyncSocketBuffer
| CallerBuffer (address : N).

#[global] Instance buffer_eq_dec : EqDecision buffer.
Proof. solve_decision. Defined.

Definition buffer_non_null (b : buffer) : bool :=
  match b with NullBuffer => false | _ => true end.

(** The [Allocate] macro of <Utilities/Memory.h> (missing from the sources),
    as a [malloc] that succeeds: an address that is neither null nor in use,
    holding whatever the memory held. *)
Definition Allocate (os : environment) : M pointer :=
  λ st, let p := fresh ({[NULL]} ∪ dom (heap st) : gset N) in
        Done p (set_heap (<[p := fresh_memory os]> (heap st)) st).

(** [WSAStartup] on first use. *)
Definition ensure_winsock : M unit :=
  st ← get;
  if negb (winsockInitialized st) then modify (set_winsockInitialized true)
  else ret tt.

(** [SAL_Socket_ConnectIP], WINDOWS branch; a null result is a failure. *)
Definition SAL_Socket_ConnectIP (os : environment) (ip port : Z) : M pointer :=
  ensure_winsock;;
  let rawServer := socket_result os in
  if bool_decide (rawServer = INVALID_SOCKET) then ret NULL
  else if bool_decide (connect_result os ip port = SOCKET_ERROR) then ret NULL
  else
    server ← Allocate os;
    SAL_Socket_Init server;;
    store server (set_Connected true);;
    store server (set_RawSocket rawServer);;
    ret server.

(** Writing a [uint32] through a pointer of the caller: [*p = v].  The null
    pointer points to no object; every other address is taken to be a word
    of the caller. *)
Definition store_word (p : pointer) (v : Z) : M unit :=
  if is_null p then fail AccessViolation
  else modify (λ st, set_callerWords (<[p := v]> (callerWords st)) st).

(** [SAL_Socket_Accept], WINDOWS branch.  [listener] is dereferenced
    without a test, and the null pointer points to no socket whatever the
    heap holds. *)
Definition SAL_Socket_Accept (os : environment) (listener acceptedAddress : pointer)
    : M pointer :=
  l ← (if is_null listener then fail AccessViolation else load listener);
  let rawSocket := accept_result os (RawSocket l) in
  if bool_decide (rawSocket ≠ INVALID_SOCKET) then
    store_word acceptedAddress (accept_address os (RawSocket l));;
    socket ← Allocate os;
    SAL_Socket_Init socket;;
    store socket (set_RawSocket rawSocket);;
    store socket (set_Connected true);;
    ret socket
  else ret NULL.

(** The [HOSTENT] of <winsock2.h> as far as [SAL_Socket_Connect] reads it:
    [h_length], and the array [h_addr_list] of pointers with its
    terminating null.  The list holds the values of the pointers. *)
Record HOSTENT : Type := mkHostent {
  h_length : Z;
  h_addr_list : list Z
}.

(** The [for] loop of [SAL_Socket_Connect] at the counter [i], with the
    slots of [h_addr_list] from index [i] on.  The loop runs while
    [i < hostEntry->h_length] and hands [(uint32)hostEntry->h_addr_list[i]],
    the pointer in the slot and not the address it points to, to
    [SAL_Socket_ConnectIP]; reading a slot past the end of the array is an
    access to no object.  [answers i] is what the operating system answers
    while slot [i] is tried.  The counter is a [uint8]: after a failed
    attempt at 255 it is 0 again, the test [i < h_length] holds as before
    and the loop goes through the same slots with the same answers without
    end. *)
Fixpoint connect_first (slots : list Z) (i : nat) (len : Z)
    (answers : nat → environment) (port : Z) : M pointer :=
  if bool_decide (Z.of_nat i < len) then
    match slots with
    | [] => fail AccessViolation
    | a :: rest =>
      socket ← SAL_Socket_ConnectIP (answers i) (to_uint32 a) port;
      if non_null socket then ret socket
      else if bool_decide (Z.of_nat i = 255) then fail Blocked
      else connect_first rest (S i) len answers port
    end
  else ret NULL.

(** [SAL_Socket_Connect], WINDOWS branch.  [host] is what [gethostbyname]
    returns: null or a host entry. *)
Definition SAL_Socket_Connect (os : environment) (host : option HOSTENT)
    (answers : nat → environment) (port : Z) : M pointer :=
  ensure_winsock;;
  let hostAddress := inet_addr_result os in
  if bool_decide (hostAddress = INADDR_NONE) then
    match host with
    | None => fail AccessViolation
    | Some hostEntry =>
      connect_first (h_addr_list hostEntry) 0 (h_length hostEntry) answers port
    end
  else SAL_Socket_ConnectIP os hostAddress port.

(** [SAL_Socket_Listen], WINDOWS branch. *)
Definition SAL_Socket_Listen (os : environment) : M pointer :=
  ensure_winsock;;
  let rawListener := socket_result os in
  if bool_decide (rawListener = INVALID_SOCKET) then ret NULL
  else if bool_decide (getaddrinfo_result os ≠ 0) then ret NULL
  else if bool_decide (bind_result os ≠ 0) then ret NULL
  else if bool_decide (listen_result os ≠ 0) then ret NULL
  else
    listener ← Allocate os;
    store listener (set_ReadCallback NULL);;
    store listener (set_ReadCallbackState NULL);;
    store listener (set_Connected true);;
    store listener (set_LastError 0);;
    store listener (set_RawSocket rawListener);;
    ret listener.

Definition SAL_Socket_Close (socket : pointer) : M unit :=
  assert (non_null socket);;
  SAL_Socket_UnsetSocketCallback socket;;
  store socket (set_Connected false);;
  store socket (set_RawSocket INVALID_SOCKET).

(** The [uint32] length handed to the [int len] of winsock's [recv] and
    [send]: from [2 ^ 31] on it arrives as a negative number. *)
Definition to_int32 (z : Z) : Z := (z + 2 ^ 31) mod 2 ^ 32 - 2 ^ 31.

Definition SAL_Socket_Read (os : environment) (socket : pointer) (buf : buffer)
    (bufferSize : Z) : M Z :=
  assert (buffer_non_null buf);;
  assert (non_null socket);;
  s ← load socket;
  let received := recv os (RawSocket s) (to_int32 bufferSize) in
  if bool_decide (received ≤ 0) then ret 0
  else ret (to_uint32 received).

Definition SAL_Socket_Write (os : environment) (socket : pointer) (toWrite : buffer)
    (writeAmount : Z) : M bool :=
  assert (non_null socket);;
  assert (buffer_non_null toWrite);;
  s ← load socket;
  let result := send os (RawSocket s) (to_int32 writeAmount) in
  ret (bool_decide (result ≠ SOCKET_ERROR)).

(** ** The callback worker *)

(** An [fd_set] of <winsock2.h>: the first [fd_count] slots of [fd_array].
    [FD_SET] skips a handle that is already there, and a full set. *)
Definition FD_ZERO : list Z := [].

Definition FD_SET (fd : Z) (set : list Z) : list Z :=
  if bool_decide (fd ∈ set) then set
  else if bool_decide (length set < FD_SETSIZE)%nat then set ++ [fd]
  else set.

(** [select] with only a read set: the set is overwritten with its readable
    handles. *)
Definition select (os : environment) (readSet : list Z) : list Z :=
  filter (λ fd, readable os fd = true) readSet.

(** Modelled from the spec: the resumable cursor of the [AsyncLinkedList]
    ("a single resumable cursor tracks a logical position in the ordered
    collection"), as the index of the next item.  [BeginIterate] starts at
    the first item, [IterateNext] hands out the item under the cursor and
    moves on, or hands out [NULL] at the end of the list, and
    [ResetIterator] goes back to the first item. *)
Definition AsyncLinkedList_BeginIterate : M nat := ret 0%nat.

Definition AsyncLinkedList_IterateNext (it : nat) : M (pointer * nat) :=
  st ← get;
  match asyncSocketList st !! it with
  | Some p => ret (p, S it)
  | None => ret (NULL, it)
  end.

Definition AsyncLinkedList_ResetIterator (it : nat) : nat := 0%nat.

(** The locals of [SAL_Socket_CallbackWorker_Run] that live across cycles. *)
Record worker_locals : Type := mkLocals {
  socket : pointer;
  selectIterator : nat
}.

(** The first [for] loop, with [n] the number of rounds left before [i]
    reaches [FD_SETSIZE]. *)
Fixpoint fill_readSet (n : nat) (w : worker_locals) (readSet : list Z)
    : M (worker_locals * list Z) :=
  match n with
  | O => ret (w, readSet)
  | S n' =>
    r ← AsyncLinkedList_IterateNext (selectIterator w);
    if is_null r.1 then ret (mkLocals r.1 r.2, readSet)
    else
      s ← load r.1;
      fill_readSet n' (mkLocals r.1 r.2) (FD_SET (RawSocket s) readSet)
  end.

(** One call of a read callback, and the list entry it was made for. *)
Record callback_call : Type := mkCall {
  entry : pointer;
  callee : pointer;
  arg_buffer : buffer;
  arg_length : Z;
  arg_state : pointer
}.

#[global] Instance callback_call_eq_dec : EqDecision callback_call.
Proof. solve_decision. Defined.

(** A loop whose body yields calls. *)
Fixpoint for_each {A} (body : A → M (list callback_call)) (l : list A)
    : M (list callback_call) :=
  match l with
  | [] => ret []
  | a :: l' =>
    c ← body a;
    cs ← for_each body l';
    ret (c ++ cs)
  end.

(** The body of [AsyncLinkedList_ForEach] in the dispatch loop.  What the
    callback itself does is code of the application and is not modelled. *)
Definition dispatch_entry (os : environment) (fd : Z) (socketEntry : pointer)
    : M (list callback_call) :=
  s ← load socketEntry;
  if bool_decide (RawSocket s = fd) then
    bytesRead ← SAL_Socket_Read os socketEntry asyncSocketBuffer CALLBACK_BUFFER_SIZE;
    if is_null (ReadCallback s) then fail AccessViolation
    else ret [mkCall socketEntry (ReadCallback s) asyncSocketBuffer bytesRead
                     (ReadCallbackState s)]
  else ret [].

(** What one cycle did: the handles put to [select] and the callbacks
    called, in order. *)
Record cycle_trace : Type := mkTrace {
  queried : list Z;
  calls : list callback_call
}.

(** One round of the [while] loop. *)
Definition worker_cycle (os : environment) (w : worker_locals)
    : M (worker_locals * cycle_trace) :=
  r ← fill_readSet FD_SETSIZE w FD_ZERO;
  let w' := if is_null (socket r.1)
            then mkLocals (socket r.1) (AsyncLinkedList_ResetIterator (selectIterator r.1))
            else r.1 in
  let readSet := select os r.2 in
  cs ← for_each (λ fd, st ← get; for_each (dispatch_entry os fd) (asyncSocketList st))
                readSet;
  ret (w', mkTrace r.2 cs).

(** The [while (asyncWorkerRunning)] loop, observed for as many cycles as
    there are answers of the operating system. *)
Fixpoint worker_loop (oss : list environment) (w : worker_locals)
    : M (list cycle_trace) :=
  match oss with
  | [] => ret []
  | os :: oss' =>
    st ← get;
    if asyncWorkerRunning st then
      r ← worker_cycle os w;
      ts ← worker_loop oss' r.1;
      ret (r.2 :: ts)
    else ret []
  end.

(** [SAL_Socket_CallbackWorker_Run]; [socket0] is the indeterminate value of
    the local [socket] on entry. *)
Definition SAL_Socket_CallbackWorker_Run (socket0 : pointer) (oss : list environment)
    : M (list cycle_trace) :=
  it ← AsyncLinkedList_BeginIterate;
  worker_loop oss (mkLocals socket0 it).

(** ** Sequences of registration calls *)

Inductive registration_call : Type :=
| Call_SetReadCallback (socket callback state : pointer)
| Call_UnsetSocketCallback (socket : pointer).

Definition perform (c : registration_call) : M unit :=
  match c with
  | Call_SetReadCallback socket callback state =>
      SAL_Socket_SetReadCallback socket callback state
  | Call_UnsetSocketCallback socket => SAL_Socket_UnsetSocketCallback socket
  end.

Fixpoint perform_all (cs : list registration_call) : M unit :=
  match cs with
  | [] => ret tt
  | c :: cs' => perform c;; perform_all cs'
  end.

(** Sockets as [SAL_Socket_Init] leaves their callback: not set. *)
Definition no_callbacks (h : gmap N SAL_Socket) : Prop :=
  map_Forall (λ _ s, ReadCallback s = NULL) h.

(** The registration list and the [ReadCallback] fields agree. *)
Definition registration_consistent (st : state) : Prop :=
  NoDup (asyncSocketList st) ∧
  (∀ p, p ∈ asyncSocketList st → is_Some (heap st !! p)) ∧
  (∀ p s, heap st !! p = Some s →
          (ReadCallback s ≠ NULL ↔ p ∈ asyncSocketList st)).

(** The invariant of the engine: consistency, nothing is registered while
    no worker is running, and the null pointer is never registered. *)
Record engine_invariant (st : state) : Prop := mkInvariant {
  inv_consistent : registration_consistent st;
  inv_idle : asyncWorkerRunning st = false → asyncSocketList st = [];
  inv_non_null : NULL ∉ asyncSocketList st
}.

(** *** What the two registration calls compute *)

(** The state after the lazy start of the worker. *)
Definition started (st : state) : state :=
  if asyncWorkerRunning st then st
  else mkState (heap st) [] (nextThread st) true (winsockInitialized st)
               (nextThread st :: liveThreads st) (S (nextThread st))
               (callerWords st).

(** The state after a successful [SAL_Socket_SetReadCallback] on a socket
    holding [s]. *)
Definition registered (socket callback cstate : pointer) (s : SAL_Socket)
    (st : state) : state :=
  let st1 := started st in
  mkState (<[socket := mkSocket (RawSocket s) (Connected s) (LastError s)
                                callback cstate]> (heap st))
          (if is_null (ReadCallback s) then asyncSocketList st1 ++ [socket]
           else asyncSocketList st1)
          (asyncWorker st1) true (winsockInitialized st)
          (liveThreads st1) (nextThread st1) (callerWords st).

(** The state after a successful [SAL_Socket_UnsetSocketCallback]. *)
Definition unregistered (socket : pointer) (s : SAL_Socket) (st : state) : state :=
  if non_null (ReadCallback s) then
    mkState (<[socket := mkSocket (RawSocket s) (Connected s) (LastError s)
                                  NULL NULL]> (heap st))
            (remove_first socket (asyncSocketList st))
            (asyncWorker st) (asyncWorkerRunning st) (winsockInitialized st)
            (liveThreads st) (nextThread st) (callerWords st)
  else st.

(** The state after a successful [SAL_Socket_Close]. *)
Definition closed (socket : pointer) (s : SAL_Socket) (st : state) : state :=
  let st1 := unregistered socket s st in
  set_heap (<[socket := mkSocket INVALID_SOCKET false (LastError s)
                                 NULL (if non_null (ReadCallback s) then NULL
                                       else ReadCallbackState s)]> (heap st1)) st1.

(** The address [Allocate] hands out in [st]. *)
Definition next_address (st : state) : pointer :=
  fresh ({[NULL]} ∪ dom (heap st) : gset N).

(** The state after a successful [SAL_Socket_Accept], [SAL_Socket_ConnectIP]
    or [SAL_Socket_Listen] that got the handle [raw]. *)
Definition with_new_socket (raw : Z) (st : state) : state :=
  set_heap (<[next_address st := mkSocket raw true 0 NULL NULL]> (heap st)) st.

(** The state after [SAL_Socket_ClearCallbacks]. *)
Definition shut_down (st : state) : state :=
  mkState (heap st) [] (asyncWorker st) false (winsockInitialized st)
          (filter (λ t, t ≠ asyncWorker st) (liveThreads st)) (nextThread st)
          (callerWords st).

(** A computation that returns in the state it was started in. *)
Definition read_only {A} (m : M A) : Prop :=
  ∀ st a st', m st = Done a st' → st' = st.

(** Every entry of the list is a non-null pointer to a live socket with a
    callback, and no entry is there twice.  Unlike [registration_consistent]
    this survives a shutdown, which empties the list and leaves the
    callbacks set. *)
Definition registrations_sound (st : state) : Prop :=
  NoDup (asyncSocketList st) ∧
  (∀ p, p ∈ asyncSocketList st →
        p ≠ NULL ∧ ∃ s, heap st !! p = Some s ∧ ReadCallback s ≠ NULL).

(** The state after a word of the caller has been written. *)
Definition with_word (p : pointer) (v : Z) (st : state) : state :=
  set_callerWords (<[p := v]> (callerWords st)) st.

(** What the calls that create sockets do to the state: they start winsock,
    write words of the caller and put new connected sockets at fresh
    addresses. *)
Inductive allocates : state → state → Prop :=
| allocates_none st : allocates st st
| allocates_winsock st st' :
    allocates (set_winsockInitialized true st) st' → allocates st st'
| allocates_word p v st st' :
    allocates (with_word p v st) st' → allocates st st'
| allocates_socket raw st st' :
    allocates (with_new_socket raw st) st' → allocates st st'.

(** ** Sequences of calls from the application and cycles of the worker *)

Inductive socket_call : Type :=
| Do_Connect (os : environment) (host : option HOSTENT) (answers : nat → environment)
             (port : Z)
| Do_ConnectIP (os : environment) (ip port : Z)
| Do_Listen (os : environment)
| Do_Accept (os : environment) (listener acceptedAddress : pointer)
| Do_Close (socket : pointer)
| Do_Read (os : environment) (socket : pointer) (buf : buffer) (bufferSize : Z)
| Do_Write (os : environment) (socket : pointer) (toWrite : buffer) (writeAmount : Z)
| Do_SetReadCallback (socket callback state : pointer)
| Do_UnsetSocketCallback (socket : pointer)
| Do_ClearCallbacks
| Do_worker_cycle (os : environment) (w : worker_locals).

(** Forgets the value a call returns. *)
Definition discard {A} (m : M A) : M unit := m ≫= λ _, ret tt.

Definition run_call (c : socket_call) : M unit :=
  match c with
  | Do_Connect os host answers port =>
      discard (SAL_Socket_Connect os host answers port)
  | Do_ConnectIP os ip port => discard (SAL_Socket_ConnectIP os ip port)
  | Do_Listen os => discard (SAL_Socket_Listen os)
  | Do_Accept os listener acceptedAddress =>
      discard (SAL_Socket_Accept os listener acceptedAddress)
  | Do_Close socket => SAL_Socket_Close socket
  | Do_Read os socket buf bufferSize => discard (SAL_Socket_Read os socket buf bufferSize)
  | Do_Write os socket toWrite writeAmount =>
      discard (SAL_Socket_Write os socket toWrite writeAmount)
  | Do_SetReadCallback socket callback state =>
      SAL_Socket_SetReadCallback socket callback state
  | Do_UnsetSocketCallback socket => SAL_Socket_UnsetSocketCallback socket
  | Do_ClearCallbacks => SAL_Socket_ClearCallbacks
  | Do_worker_cycle os w => discard (worker_cycle os w)
  end.

Fixpoint run_calls (cs : list socket_call) : M unit :=
  match cs with
  | [] => ret tt
  | c :: cs' => run_call c;; run_calls cs'
  end.

(** [c] is a call of [SAL_Socket_Close] on [p]. *)
Definition closes (p : pointer) (c : socket_call) : bool :=
  match c with
  | Do_Close socket => bool_decide (socket = p)
  | _ => false
  end.

(** The [Connected] flag of the socket at [p]. *)
Definition connected_at (p : pointer) (st : state) : Prop :=
  ∃ s, heap st !! p = Some s ∧ Connected s = true.

(** What a call that may create a socket does to the flags: the socket it
    hands out, if any, is connected, and the sockets that were connected
    still are. *)
Definition hands_out (p : pointer) (st st' : state) : Prop :=
  (p ≠ NULL → connected_at p st') ∧
  (∀ q, connected_at q st → connected_at q st').

(** ** What one cycle of the worker computes *)

(** The handle of the socket at [p]. *)
Definition handle_at (st : state) (p : pointer) : Z :=
  from_option RawSocket 0 (heap st !! p).

(** The first loop, along the items [rest] that lie ahead of the cursor
    [it]; [sock] is the current value of the local [socket]. *)
Fixpoint filled (st : state) (n : nat) (rest : list pointer) (sock : pointer)
    (it : nat) (readSet : list Z) : worker_locals * list Z :=
  match n with
  | O => (mkLocals sock it, readSet)
  | S n' =>
    match rest with
    | [] => (mkLocals NULL it, readSet)
    | p :: rest' => filled st n' rest' p (S it) (FD_SET (handle_at st p) readSet)
    end
  end.

Definition cycle_fill (st : state) (w : worker_locals) : worker_locals * list Z :=
  filled st FD_SETSIZE (drop (selectIterator w) (asyncSocketList st))
         (socket w) (selectIterator w) FD_ZERO.

(** The sockets whose handles a cycle puts into its read set: the batch. *)
Definition batch_sockets (st : state) (w : worker_locals) : list pointer :=
  take FD_SETSIZE (drop (selectIterator w) (asyncSocketList st)).

(** The locals after a cycle. *)
Definition next_locals (st : state) (w : worker_locals) : worker_locals :=
  let r := cycle_fill st w in
  if is_null (socket r.1)
  then mkLocals (socket r.1) (AsyncLinkedList_ResetIterator (selectIterator r.1))
  else r.1.

(** What [SAL_Socket_Read] returns on a live socket with the static
    buffer. *)
Definition read_result (os : environment) (s : SAL_Socket) : Z :=
  let received := recv os (RawSocket s) CALLBACK_BUFFER_SIZE in
  if bool_decide (received ≤ 0) then 0 else to_uint32 received.

(** The call made for list entry [p] while the readable handle [fd] is
    being served. *)
Definition dispatched (os : environment) (st : state) (fd : Z) (p : pointer)
    : list callback_call :=
  match heap st !! p with
  | Some s =>
    if bool_decide (RawSocket s = fd)
    then [mkCall p (ReadCallback s) asyncSocketBuffer (read_result os s)
                 (ReadCallbackState s)]
    else []
  | None => []
  end.

(** The calls of a cycle whose [select] left [readSet]: for each readable
    handle, a scan of the whole [asyncSocketList]. *)
Definition cycle_calls (os : environment) (st : state) (readSet : list Z)
    : list callback_call :=
  readSet ≫= λ fd, asyncSocketList st ≫= dispatched os st fd.

Definition cycle_trace_of (os : environment) (st : state) (w : worker_locals)
    : cycle_trace :=
  mkTrace (cycle_fill st w).2
          (cycle_calls os st (select os (cycle_fill st w).2)).

(** No two registered sockets share a handle. *)
Definition distinct_handles (st : state) : Prop :=
  ∀ p q, p ∈ asyncSocketList st → q ∈ asyncSocketList st →
         handle_at st p = handle_at st q → p = q.

(** The number of calls a cycle made for sockets with handle [fd]. *)
Definition dispatch_count (st : state) (fd : Z) (cs : list callback_call) : nat :=
  length (filter (λ c, handle_at st (entry c) = fd) cs).

(** The traces of the cycles run on the answers [oss], starting with the
    locals [w]. *)
Fixpoint loop_traces (oss : list environment) (st : state) (w : worker_locals)
    : list cycle_trace :=
  match oss with
  | [] => []
  | os :: oss' => cycle_trace_of os st w :: loop_traces oss' st (next_locals st w)
  end.

(** The locals after [k] cycles. *)
Fixpoint locals_after (st : state) (k : nat) (w : worker_locals) : worker_locals :=
  match k with
  | O => w
  | S k' => locals_after st k' (next_locals st w)
  end.

(** ** The dispatch policies of the specification *)

(** Empty reads are skipped: no callback is called with a length of zero. *)
Definition skips_empty_reads (os : environment) (w : worker_locals) (st : state)
    : Prop :=
  ∀ w' t st', worker_cycle os w st = Done (w', t) st' →
              ∀ c, c ∈ calls t → arg_length c ≠ 0.

(** Dispatch goes through the batch: only sockets of the cycle's batch are
    called back, and each readable handle is served at most once. *)
Definition dispatches_through_batch (os : environment) (w : worker_locals)
    (st : state) : Prop :=
  ∀ w' t st', worker_cycle os w st = Done (w', t) st' →
              (∀ c, c ∈ calls t → entry c ∈ batch_sockets st w) ∧
              (∀ fd, fd ∈ select os (queried t) →
                     (dispatch_count st fd (calls t) ≤ 1)%nat).

(** ** Further notions for the properties beyond the claims *)

(** [c] is a call of [SAL_Socket_ClearCallbacks]. *)
Definition is_shutdown (c : socket_call) : bool :=
  match c with
  | Do_ClearCallbacks => true
  | _ => false
  end.

(** The thread table holds the worker while the flag is up, and nothing
    else. *)
Definition one_worker (st : state) : Prop :=
  liveThreads st = if asyncWorkerRunning st then [asyncWorker st] else [].

(** The slots of a host entry that the loop of [SAL_Socket_Connect] can
    reach, each with the answers of the operating system while it is tried:
    the first [h_length] slots of the array, and 256 at most. *)
Definition tried_slots (hostEntry : HOSTENT) (answers : nat → environment)
    : list (Z * environment) :=
  take (Z.to_nat (Z.min (h_length hostEntry) 256))
       (imap (λ i a, (a, answers i)) (h_addr_list hostEntry)).

(** The attempt of [SAL_Socket_ConnectIP] on the pointer of a slot gets a
    socket and a connection. *)
Definition attempt_succeeds (port : Z) (a : Z * environment) : bool :=
  negb (bool_decide (socket_result a.2 = INVALID_SOCKET)) &&
  negb (bool_decide (connect_result a.2 (to_uint32 a.1) port = SOCKET_ERROR)).

(** The number of calls a cycle made for the list entry [p]. *)
Definition delivery_count (p : pointer) (cs : list callback_call) : nat :=
  length (filter (λ c, entry c = p) cs).

(** Every entry of the list is a non-null pointer to a live socket. *)
Definition entries_live (st : state) : Prop :=
  ∀ q, q ∈ asyncSocketList st → q ≠ NULL ∧ is_Some (heap st !! q).


(** The statics the calls that create sockets leave alone. *)
Definition statics_kept (st st' : state) : Prop :=
  asyncSocketList st' = asyncSocketList st ∧
  asyncWorker st' = asyncWorker st ∧
  asyncWorkerRunning st' = asyncWorkerRunning st ∧
  liveThreads st' = liveThreads st ∧
  nextThread st' = nextThread st.

(** [p] is a new socket with handle [raw]: not null, at an address that
    held no socket, connected, without error or callback; nothing else in
    the heap has changed. *)
Definition hands_out_fresh (raw : Z) (p : pointer) (st st' : state) : Prop :=
  p ≠ NULL ∧ heap st !! p = None ∧
  heap st' = <[p := mkSocket raw true 0 NULL NULL]> (heap st).


(** ** Concrete inputs *)

(** The state a call stopped or returned in. *)
Definition state_of {A} (o : outcome A) : state :=
  match o with
  | Done _ st => st
  | Failed _ st => st
  end.

(** Two sockets fresh from [SAL_Socket_Init], at addresses 1 and 2. *)
Definition two_sockets : gmap N SAL_Socket :=
  {[ 1%N := SAL_Socket_Init_value; 2%N := SAL_Socket_Init_value ]}.

(** Register both, register the first again, unregister the second. *)
Definition example_calls : list registration_call :=
  [ Call_SetReadCallback 1 100 200; Call_SetReadCallback 2 100 200;
    Call_SetReadCallback 1 101 201; Call_UnsetSocketCallback 2 ]%N.

(** An operating system that accepts a connection on handle 9, receives
    five bytes wherever the buffer has room for them, and reports every
    handle readable. *)
Definition example_os : environment :=
  {| socket_result := 7; connect_result := λ _ _, 0;
     accept_result := λ _, 9; accept_address := λ _, 16777343;
     inet_addr_result := 16777343; getaddrinfo_result := 0;
     bind_result := 0; listen_result := 0;
     recv := λ _ len, Z.min len 5; send := λ _ len, len;
     readable := λ _, true; fresh_memory := SAL_Socket_Init_value |}.

(** The state after accepting a connection on the socket at address 1; the
    new socket is at address 3. *)
Definition example_accepted : state :=
  state_of (SAL_Socket_Accept example_os 1%N 64%N (initial_state two_sockets)).

(** Register a callback on the accepted socket, read from it, write to it,
    let the worker run one cycle, open a listening socket and a connection,
    close the socket at address 1 and shut the engine down. *)
Definition example_session : list socket_call :=
  [ Do_SetReadCallback 3 100 200;
    Do_Read example_os 3 asyncSocketBuffer 1024;
    Do_Write example_os 3 (CallerBuffer 64) 16;
    Do_worker_cycle example_os (mkLocals NULL 0);
    Do_Listen example_os;
    Do_Connect example_os None (λ _, example_os) 80;
    Do_Close 1;
    Do_ClearCallbacks ]%N.

(** Register a socket, shut the engine down, register the same socket
    again. *)
Definition restart_calls : list socket_call :=
  [ Do_SetReadCallback 1 100 200; Do_ClearCallbacks;
    Do_SetReadCallback 1 100 200 ]%N.

(** An operating system that reports every handle readable and has nothing
    to receive. *)
Definition silent_os : environment :=
  {| socket_result := 7; connect_result := λ _ _, 0;
     accept_result := λ _, 9; accept_address := λ _, 16777343;
     inet_addr_result := 16777343; getaddrinfo_result := 0;
     bind_result := 0; listen_result := 0;
     recv := λ _ _, 0; send := λ _ len, len;
     readable := λ _, true; fresh_memory := SAL_Socket_Init_value |}.

(** One of the two sockets registered; both registered.  Fresh from
    [SAL_Socket_Init], both have the handle 0. *)
Definition registered_one : state :=
  state_of (SAL_Socket_SetReadCallback 1%N 100%N 200%N (initial_state two_sockets)).

Definition registered_two : state :=
  state_of (SAL_Socket_SetReadCallback 2%N 101%N 201%N registered_one).

(** The accepted socket (handle 9) and the socket at address 1 (handle 0),
    both registered. *)
Definition registered_distinct : state :=
  state_of (perform_all [Call_SetReadCallback 1 100 200;
                         Call_SetReadCallback 3 101 201]%N
                        (initial_state (heap example_accepted))).

(** The example of the specification: 1500 connected sockets at addresses 1
    to 1500, the socket at address [a] with handle [a], all registered in
    the order of their addresses. *)
Definition crowd_addresses : list N := N.of_nat <$> seq 1 1500.

Definition crowd_heap : gmap N SAL_Socket :=
  list_to_map ((λ a, (a, mkSocket (Z.of_N a) true 0 NULL NULL)) <$> crowd_addresses).

Definition crowd_calls : list registration_call :=
  (λ a, Call_SetReadCallback a 100%N 200%N) <$> crowd_addresses.

Definition crowd : state :=
  state_of (perform_all crowd_calls (initial_state crowd_heap)).

(** * Proofs *)

Ltac unfold_M :=
  unfold store in *;
  unfold mbind, mret, M_bind, M_ret, bind, ret, get, modify, fail, assert,
    load in *.

Section monad_facts.
Context {A B : Type}.

Lemma bind_done (m : M A) (k : A → M B) st a st1 :
  m st = Done a st1 → (m ≫= k) st = k a st1.
Proof. unfold_M. intros ->. reflexivity. Qed.

Lemma bind_failed (m : M A) (k : A → M B) st e st1 :
  m st = Failed e st1 → (m ≫= k) st = Failed e st1.
Proof. unfold_M. intros ->. reflexivity. Qed.

Lemma bind_done_inv (m : M A) (k : A → M B) st b st2 :
  (m ≫= k) st = Done b st2 →
  ∃ a st1, m st = Done a st1 ∧ k a st1 = Done b st2.
Proof. unfold_M. destruct (m st) as [a st1|]; [eauto | discriminate]. Qed.
End monad_facts.

Lemma is_null_true p : is_null p = true ↔ p = NULL.
Proof. unfold is_null. apply bool_decide_eq_true. Qed.

Lemma is_null_false p : is_null p = false ↔ p ≠ NULL.
Proof. unfold is_null. apply bool_decide_eq_false. Qed.

Lemma non_null_true p : non_null p = true ↔ p ≠ NULL.
Proof. unfold non_null. rewrite negb_true_iff. apply is_null_false. Qed.

Lemma non_null_false p : non_null p = false ↔ p = NULL.
Proof. unfold non_null. rewrite negb_false_iff. apply is_null_true. Qed.

Lemma Init_done socket st s :
  heap st !! socket = Some s →
  SAL_Socket_Init socket st
  = Done tt (set_heap (<[socket := SAL_Socket_Init_value]> (heap st)) st).
Proof.
  intros Hs. unfold SAL_Socket_Init, SAL_Socket_Init_value. unfold_M. rewrite Hs.
  simpl. repeat (rewrite ?lookup_insert_eq, ?insert_insert_eq; simpl).
  unfold set_heap; simpl.
  repeat (rewrite ?lookup_insert_eq, ?insert_insert_eq; simpl). reflexivity.
Qed.

Lemma SetReadCallback_done socket callback cstate st s :
  socket ≠ NULL → callback ≠ NULL → cstate ≠ NULL →
  heap st !! socket = Some s →
  SAL_Socket_SetReadCallback socket callback cstate st
  = Done tt (registered socket callback cstate s st).
Proof.
  intros H1 H2 H3 Hs.
  apply non_null_true in H1, H2, H3.
  unfold SAL_Socket_SetReadCallback, registered, started,
    SAL_Socket_CallbackWorker_Initialize, AsyncLinkedList_Initialize,
    SAL_Thread_Create, AsyncLinkedList_Append.
  unfold_M. rewrite H1, H2, H3.
  destruct st as [h l w r ws lt nt cw]; simpl in *.
  destruct r; simpl; rewrite Hs; destruct (is_null (ReadCallback s)); simpl.
  all: repeat (rewrite ?Hs, ?lookup_insert_eq; simpl).
  all: unfold set_heap; simpl; rewrite insert_insert_eq; reflexivity.
Qed.

Lemma SetReadCallback_done_inv socket callback cstate st st' :
  SAL_Socket_SetReadCallback socket callback cstate st = Done tt st' →
  socket ≠ NULL ∧ callback ≠ NULL ∧ cstate ≠ NULL ∧
  ∃ s, heap st !! socket = Some s ∧ st' = registered socket callback cstate s st.
Proof.
  intros H.
  destruct (non_null socket) eqn:E1.
  2:{ unfold SAL_Socket_SetReadCallback in H. unfold_M. rewrite E1 in H. discriminate. }
  destruct (non_null callback) eqn:E2.
  2:{ unfold SAL_Socket_SetReadCallback in H. unfold_M. rewrite E1, E2 in H. discriminate. }
  destruct (non_null cstate) eqn:E3.
  2:{ unfold SAL_Socket_SetReadCallback in H. unfold_M. rewrite E1, E2, E3 in H.
      discriminate. }
  apply non_null_true in E1, E2, E3.
  destruct (heap st !! socket) as [s|] eqn:Hs.
  - rewrite (SetReadCallback_done _ _ _ _ s) in H by assumption.
    injection H as <-. eauto 10.
  - exfalso. apply non_null_true in E1, E2, E3.
    unfold SAL_Socket_SetReadCallback, SAL_Socket_CallbackWorker_Initialize,
      AsyncLinkedList_Initialize, SAL_Thread_Create in H.
    unfold_M. rewrite E1, E2, E3 in H.
    destruct st as [h l w r ws lt nt cw]; simpl in *.
    destruct r; simpl in H; rewrite Hs in H; discriminate.
Qed.

Lemma UnsetSocketCallback_done socket st s :
  socket ≠ NULL → heap st !! socket = Some s →
  SAL_Socket_UnsetSocketCallback socket st = Done tt (unregistered socket s st).
Proof.
  intros H1 Hs. apply non_null_true in H1.
  unfold SAL_Socket_UnsetSocketCallback, unregistered, AsyncLinkedList_Remove.
  unfold_M. rewrite H1. simpl. rewrite Hs.
  destruct (non_null (ReadCallback s)); [|reflexivity].
  repeat (rewrite ?Hs, ?lookup_insert_eq; simpl).
  unfold set_heap, set_asyncSocketList; simpl.
  rewrite insert_insert_eq. reflexivity.
Qed.

Lemma UnsetSocketCallback_done_inv socket st st' :
  SAL_Socket_UnsetSocketCallback socket st = Done tt st' →
  socket ≠ NULL ∧ ∃ s, heap st !! socket = Some s ∧ st' = unregistered socket s st.
Proof.
  intros H.
  destruct (non_null socket) eqn:E1.
  2:{ unfold SAL_Socket_UnsetSocketCallback in H. unfold_M. rewrite E1 in H.
      discriminate. }
  destruct (heap st !! socket) as [s|] eqn:Hs.
  - apply non_null_true in E1.
    rewrite (UnsetSocketCallback_done _ _ s) in H by assumption.
    injection H as <-. eauto.
  - unfold SAL_Socket_UnsetSocketCallback in H. unfold_M.
    rewrite E1 in H. simpl in H. rewrite Hs in H. discriminate.
Qed.

(** *** Facts about [remove_first] *)

Lemma remove_first_subseteq p l q : q ∈ remove_first p l → q ∈ l.
Proof.
  induction l as [|x l IH]; simpl; [done|].
  destruct (decide (x = p)); intros Hq.
  - by apply list_elem_of_further.
  - apply elem_of_cons in Hq as [->|Hq]; [left | right; auto].
Qed.

Lemma remove_first_not_in p l : p ∉ l → remove_first p l = l.
Proof.
  induction l as [|x l IH]; simpl; [done|].
  intros Hp. apply not_elem_of_cons in Hp as [Hne Hp].
  destruct (decide (x = p)); [congruence|]. by rewrite IH.
Qed.

Lemma remove_first_other p l q : q ≠ p → q ∈ l → q ∈ remove_first p l.
Proof.
  intros Hne. induction l as [|x l IH]; simpl; [done|].
  intros Hq. apply elem_of_cons in Hq as [->|Hq].
  - destruct (decide (x = p)); [congruence | left].
  - destruct (decide (x = p)); [done | right; auto].
Qed.

Lemma remove_first_NoDup p l : NoDup l → NoDup (remove_first p l).
Proof.
  induction 1 as [|x l Hx Hl IH]; simpl; [constructor|].
  destruct (decide (x = p)); [done|].
  constructor; [|done]. intros Hin. by apply Hx, (remove_first_subseteq p).
Qed.

Lemma remove_first_gone p l : NoDup l → p ∉ remove_first p l.
Proof.
  induction 1 as [|x l Hx Hl IH]; simpl; [apply not_elem_of_nil|].
  destruct (decide (x = p)) as [->|Hne]; [done|].
  apply not_elem_of_cons. split; [congruence | done].
Qed.

(** *** The invariant is kept *)

Lemma initial_state_invariant h : no_callbacks h → engine_invariant (initial_state h).
Proof.
  intros Hh. split; [|done|apply not_elem_of_nil]. split; [constructor|]. split.
  - intros p Hp. by apply elem_of_nil in Hp.
  - intros p s Hs. simpl. split.
    + intros Hcb. by specialize (Hh p s Hs).
    + intros Hp. by apply elem_of_nil in Hp.
Qed.

Lemma started_list st :
  engine_invariant st → asyncSocketList (started st) = asyncSocketList st.
Proof.
  intros [_ Hrun _]. unfold started.
  destruct (asyncWorkerRunning st) eqn:E; [done|]. simpl. by rewrite Hrun.
Qed.

Lemma registered_list socket callback cstate s st :
  engine_invariant st →
  asyncSocketList (registered socket callback cstate s st)
  = (if is_null (ReadCallback s) then asyncSocketList st ++ [socket]
     else asyncSocketList st).
Proof. intros Hinv. simpl. by rewrite started_list. Qed.

Lemma registered_invariant socket callback cstate s st :
  socket ≠ NULL → callback ≠ NULL → heap st !! socket = Some s →
  engine_invariant st →
  engine_invariant (registered socket callback cstate s st).
Proof.
  intros Hsock Hcb Hs Hinv.
  pose proof (registered_list socket callback cstate s st Hinv) as Hl.
  destruct Hinv as [(Hnd & Hlive & Hiff) Hrun Hnn].
  assert (Hmem : ∀ p, p ∈ asyncSocketList (registered socket callback cstate s st)
                      ↔ p = socket ∨ p ∈ asyncSocketList st).
  { intros p. rewrite Hl. destruct (is_null (ReadCallback s)) eqn:E.
    - rewrite elem_of_app, list_elem_of_singleton. tauto.
    - apply is_null_false in E. apply (Hiff _ _ Hs) in E.
      split; [auto|]. intros [->|]; done. }
  split; [|done|].
  2:{ rewrite Hmem. intros [E|Hin]; [by symmetry in E | done]. }
  split; [|split].
  - rewrite Hl. destruct (is_null (ReadCallback s)) eqn:E; [|done].
    apply NoDup_app. split; [done|]. split; [|apply NoDup_singleton].
    intros p Hp Hp'. apply list_elem_of_singleton in Hp' as ->.
    apply is_null_true in E. by apply (Hiff _ _ Hs) in Hp.
  - intros p Hp. apply Hmem in Hp. simpl.
    destruct (decide (p = socket)) as [->|Hne].
    + rewrite lookup_insert_eq. eauto.
    + rewrite lookup_insert_ne by done. destruct Hp; [done | auto].
  - intros p s' Hs'. rewrite Hmem. simpl in Hs'.
    destruct (decide (p = socket)) as [->|Hne].
    + rewrite lookup_insert_eq in Hs'. injection Hs' as <-. simpl. tauto.
    + rewrite lookup_insert_ne in Hs' by done.
      rewrite (Hiff _ _ Hs'). tauto.
Qed.

Lemma unregistered_invariant socket s st :
  heap st !! socket = Some s →
  engine_invariant st → engine_invariant (unregistered socket s st).
Proof.
  intros Hs Hinv. unfold unregistered.
  destruct (non_null (ReadCallback s)) eqn:E; [|done].
  destruct Hinv as [(Hnd & Hlive & Hiff) Hrun Hnn].
  split; [split; [|split] | |]; simpl.
  - by apply remove_first_NoDup.
  - intros p Hp. apply remove_first_subseteq in Hp.
    destruct (decide (p = socket)) as [->|Hne].
    + rewrite lookup_insert_eq. eauto.
    + rewrite lookup_insert_ne by done. auto.
  - intros p s' Hs'.
    destruct (decide (p = socket)) as [->|Hne].
    + rewrite lookup_insert_eq in Hs'. injection Hs' as <-. simpl.
      split; [done|]. intros Hin. by apply remove_first_gone in Hin.
    + rewrite lookup_insert_ne in Hs' by done.
      rewrite (Hiff _ _ Hs'). split.
      * by apply remove_first_other.
      * apply remove_first_subseteq.
  - intros Hr. by rewrite (Hrun Hr).
  - intros Hin. by apply remove_first_subseteq in Hin.
Qed.

Lemma perform_invariant c st st' :
  engine_invariant st → perform c st = Done tt st' → engine_invariant st'.
Proof.
  intros Hinv. destruct c as [socket callback cstate | socket]; simpl; intros H.
  - destruct (SetReadCallback_done_inv _ _ _ _ _ H) as (Hn & Hcb & _ & s & Hs & ->).
    by apply registered_invariant.
  - destruct (UnsetSocketCallback_done_inv _ _ _ H) as (_ & s & Hs & ->).
    by apply unregistered_invariant.
Qed.

Lemma perform_all_invariant cs st st' :
  engine_invariant st → perform_all cs st = Done tt st' → engine_invariant st'.
Proof.
  revert st. induction cs as [|c cs IH]; simpl; intros st Hinv H.
  - unfold_M. by injection H as <-.
  - apply bind_done_inv in H as ([] & st1 & Hc & Hcs).
    eapply IH; [|done]. by eapply perform_invariant.
Qed.

(** C1: from the state at program start, with no callback set on any socket,
    after every sequence of [SAL_Socket_SetReadCallback] and
    [SAL_Socket_UnsetSocketCallback] calls that returns, [asyncSocketList]
    has no duplicates and holds exactly the sockets whose [ReadCallback] is
    not null; setting a callback on a socket that is in the list leaves the
    list as it is, setting one on a socket that is not in the list appends
    that socket once, and unsetting takes the socket out of the list. *)
Theorem registration_list_matches_callbacks (h : gmap N SAL_Socket)
    (cs : list registration_call) (st : state) :
  no_callbacks h →
  perform_all cs (initial_state h) = Done tt st →
  registration_consistent st ∧
  (∀ socket callback cstate st',
     SAL_Socket_SetReadCallback socket callback cstate st = Done tt st' →
     asyncSocketList st'
     = (if bool_decide (socket ∈ asyncSocketList st) then asyncSocketList st
        else asyncSocketList st ++ [socket])) ∧
  (∀ socket st',
     SAL_Socket_UnsetSocketCallback socket st = Done tt st' →
     (socket ∉ asyncSocketList st') ∧
     (∀ q, q ≠ socket → (q ∈ asyncSocketList st' ↔ q ∈ asyncSocketList st))).
Proof.
  intros Hh Hrun.
  assert (Hinv : engine_invariant st).
  { eapply perform_all_invariant; [|done]. by apply initial_state_invariant. }
  split; [apply Hinv|]. split.
  - intros socket callback cstate st' H.
    apply SetReadCallback_done_inv in H as (_ & _ & _ & s & Hs & ->).
    rewrite registered_list by done.
    destruct Hinv as [(_ & _ & Hiff) _ _]. specialize (Hiff _ _ Hs).
    destruct (is_null (ReadCallback s)) eqn:E.
    + apply is_null_true in E. rewrite bool_decide_eq_false_2; [done|].
      intros Hin. by apply Hiff in Hin.
    + apply is_null_false in E. rewrite bool_decide_eq_true_2; [done|].
      by apply Hiff.
  - intros socket st' H.
    apply UnsetSocketCallback_done_inv in H as (_ & s & Hs & ->).
    destruct Hinv as [(Hnd & _ & Hiff) _ _]. specialize (Hiff _ _ Hs).
    unfold unregistered in *.
    destruct (non_null (ReadCallback s)) eqn:E; simpl.
    + split; [by apply remove_first_gone|].
      intros q Hq. split; [apply remove_first_subseteq | by apply remove_first_other].
    + apply non_null_false in E. split; [|done].
      intros Hin. by apply Hiff in Hin.
Qed.

Lemma two_sockets_no_callbacks : no_callbacks two_sockets.
Proof.
  unfold no_callbacks.
  apply (bool_decide_unpack (map_Forall (λ _ s, ReadCallback s = NULL) two_sockets)).
  vm_compute. reflexivity.
Qed.

Lemma registration_list_matches_callbacks_witness :
  no_callbacks two_sockets ∧
  registration_consistent
    (state_of (perform_all example_calls (initial_state two_sockets))) ∧
  asyncSocketList (state_of (perform_all example_calls (initial_state two_sockets)))
  = [1%N].
Proof.
  split; [apply two_sockets_no_callbacks|]. split; [|reflexivity].
  apply (registration_list_matches_callbacks two_sockets example_calls).
  - apply two_sockets_no_callbacks.
  - vm_compute. reflexivity.
Defined.

(** C5: [SAL_Socket_SetReadCallback] with a null socket, a null callback or
    a null state stops at once on a failed [assert], in the state it was
    called in: nothing is registered and no worker is started. *)
Theorem SetReadCallback_rejects_null (socket callback cstate : pointer) (st : state) :
  socket = NULL ∨ callback = NULL ∨ cstate = NULL →
  SAL_Socket_SetReadCallback socket callback cstate st = Failed AssertionFailure st.
Proof.
  intros H. unfold SAL_Socket_SetReadCallback. unfold_M.
  destruct (non_null socket) eqn:E1; [|reflexivity].
  destruct (non_null callback) eqn:E2; [|reflexivity].
  destruct (non_null cstate) eqn:E3; [|reflexivity].
  apply non_null_true in E1, E2, E3. destruct H as [H|[H|H]]; contradiction.
Qed.

Lemma SetReadCallback_rejects_null_witness :
  SAL_Socket_SetReadCallback 1%N NULL 200%N (initial_state two_sockets)
  = Failed AssertionFailure (initial_state two_sockets).
Proof.
  apply (SetReadCallback_rejects_null 1%N NULL 200%N (initial_state two_sockets)).
  right. left. reflexivity.
Defined.

(** C10: a [SAL_Socket_SetReadCallback] or [SAL_Socket_UnsetSocketCallback]
    that returns keeps every socket where it is, leaves [RawSocket],
    [Connected] and [LastError] of the socket it was called on unchanged, and
    leaves every other socket unchanged in all its fields. *)
Theorem registration_calls_frame (socket callback cstate : pointer) (st st' : state) :
  SAL_Socket_SetReadCallback socket callback cstate st = Done tt st' ∨
  SAL_Socket_UnsetSocketCallback socket st = Done tt st' →
  dom (heap st') = dom (heap st) ∧
  (∀ q, q ≠ socket → heap st' !! q = heap st !! q) ∧
  (∃ s s', heap st !! socket = Some s ∧ heap st' !! socket = Some s' ∧
           RawSocket s' = RawSocket s ∧ Connected s' = Connected s ∧
           LastError s' = LastError s).
Proof.
  intros [H|H].
  - destruct (SetReadCallback_done_inv _ _ _ _ _ H) as (_ & _ & _ & s & Hs & ->).
    simpl. split; [|split].
    + apply dom_insert_lookup_L. eauto.
    + intros q Hq. by rewrite lookup_insert_ne.
    + exists s. eexists. split; [done|]. rewrite lookup_insert_eq. done.
  - destruct (UnsetSocketCallback_done_inv _ _ _ H) as (_ & s & Hs & ->).
    unfold unregistered. destruct (non_null (ReadCallback s)); simpl.
    + split; [|split].
      * apply dom_insert_lookup_L. eauto.
      * intros q Hq. by rewrite lookup_insert_ne.
      * exists s. eexists. split; [done|]. rewrite lookup_insert_eq. done.
    + split; [done|]. split; [done|]. exists s, s. done.
Qed.

Lemma registration_calls_frame_witness :
  SAL_Socket_SetReadCallback 1%N 100%N 200%N (initial_state two_sockets)
  = Done tt (state_of (SAL_Socket_SetReadCallback 1%N 100%N 200%N
                         (initial_state two_sockets))) ∧
  heap (state_of (SAL_Socket_SetReadCallback 1%N 100%N 200%N
                    (initial_state two_sockets))) !! 2%N
  = heap (initial_state two_sockets) !! 2%N.
Proof.
  split; [vm_compute; reflexivity|].
  apply (registration_calls_frame 1%N 100%N 200%N (initial_state two_sockets)
           (state_of (SAL_Socket_SetReadCallback 1%N 100%N 200%N
                        (initial_state two_sockets)))).
  - left. vm_compute. reflexivity.
  - discriminate.
Defined.

Lemma to_int32_small z : 0 ≤ z < 2 ^ 31 → to_int32 z = z.
Proof. intros Hz. unfold to_int32. rewrite Z.mod_small by lia. lia. Qed.

Lemma to_int32_large z : 2 ^ 31 ≤ z < 2 ^ 32 → to_int32 z = z - 2 ^ 32.
Proof.
  intros Hz. unfold to_int32.
  replace (z + 2 ^ 31) with (z - 2 ^ 31 + 1 * 2 ^ 32) by lia.
  rewrite Z_mod_plus_full, Z.mod_small by lia. lia.
Qed.

(** C9: on a live socket and a non-null buffer of capacity [bufferSize] (a
    [uint32]), with a receive that hands out no more bytes than the length
    it is given, [SAL_Socket_Read] returns and leaves the state as it is; it
    returns 0 when the raw result of the receive is zero or negative, and
    the raw result itself when that is positive; the value returned never
    exceeds the capacity.  The receive is given the capacity as an [int],
    so a capacity from [2 ^ 31] on reaches it as a negative length, and the
    value returned is 0 then. *)
Theorem Read_returns_received_or_zero (os : environment) (socket : pointer)
    (buf : buffer) (bufferSize : Z) (st : state) (s : SAL_Socket) :
  socket ≠ NULL → buf ≠ NullBuffer → heap st !! socket = Some s →
  0 ≤ bufferSize < 2 ^ 32 →
  (0 < recv os (RawSocket s) (to_int32 bufferSize) →
   recv os (RawSocket s) (to_int32 bufferSize) ≤ to_int32 bufferSize) →
  ∃ n, SAL_Socket_Read os socket buf bufferSize st = Done n st ∧
       0 ≤ n ≤ bufferSize ∧
       (recv os (RawSocket s) (to_int32 bufferSize) ≤ 0 → n = 0) ∧
       (0 < recv os (RawSocket s) (to_int32 bufferSize) →
        n = recv os (RawSocket s) (to_int32 bufferSize)) ∧
       (2 ^ 31 ≤ bufferSize → n = 0).
Proof.
  intros Hsock Hbuf Hs Hsize Hrecv.
  unfold SAL_Socket_Read. unfold_M.
  assert (buffer_non_null buf = true) as -> by (by destruct buf).
  apply non_null_true in Hsock. rewrite Hsock. simpl. rewrite Hs.
  assert (Hlen : to_int32 bufferSize ≤ bufferSize ∧
                 to_int32 bufferSize < 2 ^ 31 ∧
                 (2 ^ 31 ≤ bufferSize → to_int32 bufferSize < 0)).
  { destruct (decide (bufferSize < 2 ^ 31)).
    - rewrite to_int32_small by lia. lia.
    - rewrite to_int32_large by lia. lia. }
  case_bool_decide as Hle.
  - exists 0. repeat split; try lia.
  - exists (to_uint32 (recv os (RawSocket s) (to_int32 bufferSize))).
    unfold to_uint32. rewrite Z.mod_small by lia.
    repeat split; lia.
Qed.

Lemma Read_returns_received_or_zero_witness :
  ∃ n, SAL_Socket_Read example_os 1%N asyncSocketBuffer 1024
         (initial_state two_sockets)
       = Done n (initial_state two_sockets) ∧ n = 5.
Proof.
  destruct (Read_returns_received_or_zero example_os
              1%N asyncSocketBuffer 1024 (initial_state two_sockets)
              SAL_Socket_Init_value)
    as (n & Hn & _ & _ & Hpos & _).
  - discriminate.
  - discriminate.
  - vm_compute. reflexivity.
  - lia.
  - vm_compute. intros _ H. discriminate H.
  - exists n. split; [exact Hn|]. apply Hpos. vm_compute. reflexivity.
Defined.

(** *** Allocation, connect, accept and close *)

Ltac heap_simpl :=
  repeat (rewrite ?lookup_insert_eq, ?insert_insert_eq; simpl).

Lemma next_address_fresh st : next_address st ≠ NULL ∧ heap st !! next_address st = None.
Proof.
  unfold next_address.
  pose proof (is_fresh ({[NULL]} ∪ dom (heap st) : gset N)) as Hf.
  apply not_elem_of_union in Hf as [Hn Hd]. split.
  - intros E. apply Hn. rewrite E. by apply elem_of_singleton.
  - by apply not_elem_of_dom.
Qed.

Lemma new_socket_initialised os raw st :
  (Allocate os ≫= λ p, SAL_Socket_Init p;;
                        store p (set_RawSocket raw);;
                        store p (set_Connected true);;
                        ret p) st
  = Done (next_address st) (with_new_socket raw st).
Proof.
  unfold Allocate, SAL_Socket_Init, with_new_socket, next_address. unfold_M.
  destruct st as [h l w r ws lt nt cw]; simpl.
  set (p := fresh _). unfold set_heap; simpl. heap_simpl. reflexivity.
Qed.

Lemma store_word_done p v st :
  p ≠ NULL → store_word p v st = Done tt (with_word p v st).
Proof.
  intros Hp. unfold store_word. apply is_null_false in Hp. by rewrite Hp.
Qed.

Lemma Accept_done os listener acceptedAddress st l :
  listener ≠ NULL → heap st !! listener = Some l →
  SAL_Socket_Accept os listener acceptedAddress st
  = if bool_decide (accept_result os (RawSocket l) ≠ INVALID_SOCKET)
    then if is_null acceptedAddress then Failed AccessViolation st
         else Done (next_address st)
                   (with_new_socket (accept_result os (RawSocket l))
                      (with_word acceptedAddress (accept_address os (RawSocket l)) st))
    else Done NULL st.
Proof.
  intros Hn Hl. unfold SAL_Socket_Accept. apply is_null_false in Hn. rewrite Hn.
  rewrite (bind_done _ _ st l st) by (unfold load; by rewrite Hl).
  case_bool_decide; [|reflexivity].
  destruct (is_null acceptedAddress) eqn:Ha.
  - apply bind_failed. unfold store_word. by rewrite Ha.
  - rewrite (bind_done _ _ st tt
               (with_word acceptedAddress (accept_address os (RawSocket l)) st)).
    + exact (new_socket_initialised os _
               (with_word acceptedAddress (accept_address os (RawSocket l)) st)).
    + unfold store_word. by rewrite Ha.
Qed.

Lemma Accept_done_inv os listener acceptedAddress st p st' :
  SAL_Socket_Accept os listener acceptedAddress st = Done p st' →
  (p = NULL ∧ st' = st) ∨
  (∃ raw v, p = next_address st ∧
            st' = with_new_socket raw (with_word acceptedAddress v st)).
Proof.
  intros H. destruct (decide (listener = NULL)) as [->|Hn].
  { unfold SAL_Socket_Accept in H. unfold_M. discriminate. }
  destruct (heap st !! listener) as [l|] eqn:Hl.
  - rewrite (Accept_done _ _ _ _ l Hn Hl) in H.
    case_bool_decide; [destruct (is_null acceptedAddress); [discriminate|]|];
      injection H as <- <-; eauto.
  - unfold SAL_Socket_Accept in H. apply is_null_false in Hn. rewrite Hn in H.
    unfold_M. rewrite Hl in H. discriminate.
Qed.

Lemma ensure_winsock_done st :
  ensure_winsock st = Done tt (set_winsockInitialized true st).
Proof.
  unfold ensure_winsock. unfold_M. destruct st as [h l w r [] lt nt cw]; reflexivity.
Qed.

Lemma ConnectIP_done_inv os ip port st p st' :
  SAL_Socket_ConnectIP os ip port st = Done p st' →
  (p = NULL ∧ st' = set_winsockInitialized true st) ∨
  (p = next_address st ∧
   st' = with_new_socket (socket_result os) (set_winsockInitialized true st)).
Proof.
  unfold SAL_Socket_ConnectIP.
  intros H. rewrite (bind_done _ _ _ _ _ (ensure_winsock_done st)) in H.
  case_bool_decide.
  { injection H as <- <-. auto. }
  case_bool_decide.
  { injection H as <- <-. auto. }
  right.
  assert (Heq : (Allocate os ≫= λ server, SAL_Socket_Init server;;
                   store server (set_Connected true);;
                   store server (set_RawSocket (socket_result os));;
                   ret server) (set_winsockInitialized true st)
                = Done (next_address st)
                    (with_new_socket (socket_result os)
                       (set_winsockInitialized true st))).
  { unfold Allocate, SAL_Socket_Init, with_new_socket, next_address. unfold_M.
    destruct st as [h l w r ws lt nt cw]; simpl.
    set (q := fresh _). unfold set_heap; simpl. heap_simpl. reflexivity. }
  rewrite Heq in H. injection H as <- <-. auto.
Qed.

Lemma Close_done socket st s :
  socket ≠ NULL → heap st !! socket = Some s →
  SAL_Socket_Close socket st = Done tt (closed socket s st).
Proof.
  intros Hn Hs. unfold SAL_Socket_Close.
  rewrite (bind_done _ _ st tt st)
    by (unfold assert; apply non_null_true in Hn; by rewrite Hn).
  rewrite (bind_done _ _ _ _ _ (UnsetSocketCallback_done _ _ _ Hn Hs)).
  unfold closed, unregistered. unfold_M.
  destruct (non_null (ReadCallback s)) eqn:E; simpl.
  - heap_simpl. unfold set_heap; simpl. heap_simpl. reflexivity.
  - apply non_null_false in E. rewrite Hs. simpl. heap_simpl.
    unfold set_heap; simpl. heap_simpl.
    unfold set_RawSocket, set_Connected; simpl. rewrite E. reflexivity.
Qed.

Lemma Close_done_inv socket st st' :
  SAL_Socket_Close socket st = Done tt st' →
  socket ≠ NULL ∧ ∃ s, heap st !! socket = Some s ∧ st' = closed socket s st.
Proof.
  intros H. destruct (non_null socket) eqn:E.
  2:{ unfold SAL_Socket_Close in H. unfold_M. rewrite E in H. discriminate. }
  destruct (heap st !! socket) as [s|] eqn:Hs.
  - apply non_null_true in E. rewrite (Close_done _ _ s) in H by done.
    injection H as <-. eauto.
  - unfold SAL_Socket_Close, SAL_Socket_UnsetSocketCallback in H. unfold_M.
    rewrite E in H. simpl in H. rewrite Hs in H. discriminate.
Qed.

(** *** Computations that only read *)

Create HintDb read_only.

Lemma read_only_ret {A} (a : A) : read_only (mret a).
Proof. intros st a' st' H. unfold_M. by injection H as _ <-. Qed.

Lemma read_only_fail {A} e : read_only (@fail A e).
Proof. intros st a st' H. discriminate. Qed.

Lemma read_only_get : read_only get.
Proof. intros st a st' H. unfold_M. by injection H as _ <-. Qed.

Lemma read_only_load p : read_only (load p).
Proof.
  intros st a st' H. unfold load in H.
  destruct (heap st !! p); [by injection H as _ <- | discriminate].
Qed.

Lemma read_only_assert c : read_only (assert c).
Proof. destruct c; [apply read_only_ret | apply read_only_fail]. Qed.

Lemma read_only_bind {A B} (m : M A) (k : A → M B) :
  read_only m → (∀ a, read_only (k a)) → read_only (m ≫= k).
Proof.
  intros Hm Hk st b st' H. apply bind_done_inv in H as (a & st1 & H1 & H2).
  apply Hm in H1 as ->. by apply Hk in H2.
Qed.

Lemma read_only_if {A} (c : bool) (m1 m2 : M A) :
  read_only m1 → read_only m2 → read_only (if c then m1 else m2).
Proof. by destruct c. Qed.

#[local] Hint Resolve read_only_ret read_only_fail read_only_get read_only_load
  read_only_assert read_only_if : read_only.
#[local] Hint Extern 2 (read_only (_ ≫= _)) =>
  apply read_only_bind; [|intros ?] : read_only.

Lemma read_only_Read os socket buf bufferSize :
  read_only (SAL_Socket_Read os socket buf bufferSize).
Proof. unfold SAL_Socket_Read. auto 10 with read_only. Qed.

Lemma read_only_Write os socket toWrite writeAmount :
  read_only (SAL_Socket_Write os socket toWrite writeAmount).
Proof. unfold SAL_Socket_Write. auto 10 with read_only. Qed.

Lemma read_only_IterateNext it : read_only (AsyncLinkedList_IterateNext it).
Proof.
  unfold AsyncLinkedList_IterateNext. apply read_only_bind; [auto with read_only|].
  intros st. destruct (asyncSocketList st !! it); auto with read_only.
Qed.

#[local] Hint Resolve read_only_Read read_only_Write read_only_IterateNext : read_only.

Lemma read_only_fill_readSet n w readSet : read_only (fill_readSet n w readSet).
Proof.
  revert w readSet. induction n as [|n IH]; intros w readSet; simpl;
    auto 10 with read_only.
Qed.

Lemma read_only_for_each {A} (body : A → M (list callback_call)) l :
  (∀ a, read_only (body a)) → read_only (for_each body l).
Proof. intros Hb. induction l as [|a l IH]; simpl; auto 10 with read_only. Qed.

Lemma read_only_dispatch_entry os fd socketEntry :
  read_only (dispatch_entry os fd socketEntry).
Proof. unfold dispatch_entry. auto 10 with read_only. Qed.

#[local] Hint Resolve read_only_fill_readSet read_only_for_each
  read_only_dispatch_entry : read_only.

Lemma read_only_worker_cycle os w : read_only (worker_cycle os w).
Proof. unfold worker_cycle. auto 10 with read_only. Qed.

Lemma read_only_discard {A} (m : M A) : read_only m → read_only (discard m).
Proof. intros Hm. unfold discard. auto with read_only. Qed.

(** *** Shutdown *)

Lemma filter_ne_not_in (t : nat) (l : list nat) :
  t ∉ l → filter (λ x, x ≠ t) l = l.
Proof.
  induction l as [|x l IH]; [done|]. intros Ht.
  apply not_elem_of_cons in Ht as [Hne Ht].
  rewrite filter_cons_True by done. by rewrite IH.
Qed.

Lemma filter_ne_gone (t : nat) (l : list nat) : t ∉ filter (λ x, x ≠ t) l.
Proof. intros Hin. apply list_elem_of_filter in Hin as [Hne _]. done. Qed.

Lemma ClearCallbacks_done st : SAL_Socket_ClearCallbacks st = Done tt (shut_down st).
Proof.
  unfold SAL_Socket_ClearCallbacks, SAL_Socket_CallbackWorker_Shutdown,
    SAL_Thread_Join, AsyncLinkedList_Uninitialize, shut_down.
  unfold_M. destruct st as [h l w r ws lt nt cw]; simpl.
  case_bool_decide as Hin; simpl; [reflexivity|].
  by rewrite filter_ne_not_in.
Qed.

(** C4: [SAL_Socket_ClearCallbacks] returns from every state, with the
    worker flag down, the worker thread gone and the list empty; called
    again in the state it returned in, it returns again and changes
    nothing. *)
Theorem ClearCallbacks_idempotent (st : state) :
  ∃ st1, SAL_Socket_ClearCallbacks st = Done tt st1 ∧
         SAL_Socket_ClearCallbacks st1 = Done tt st1 ∧
         asyncWorkerRunning st1 = false ∧
         asyncSocketList st1 = [] ∧
         asyncWorker st1 ∉ liveThreads st1.
Proof.
  exists (shut_down st). split; [apply ClearCallbacks_done|].
  split; [|split; [done|split; [done|apply filter_ne_gone]]].
  rewrite ClearCallbacks_done. f_equal.
  unfold shut_down; simpl. f_equal.
  apply filter_ne_not_in, filter_ne_gone.
Qed.

(** *** The [Connected] flag *)

Lemma connected_at_other_insert p q s (st st' : state) :
  q ≠ p → heap st' = <[q := s]> (heap st) →
  connected_at p st → connected_at p st'.
Proof.
  intros Hne Hh (s0 & Hs0 & Hc). exists s0. split; [|done].
  rewrite Hh. by rewrite lookup_insert_ne.
Qed.

Lemma connected_at_same_heap p (st st' : state) :
  heap st' = heap st → connected_at p st → connected_at p st'.
Proof. intros Hh (s0 & Hs0 & Hc). exists s0. by rewrite Hh. Qed.

Lemma connected_at_new_socket p raw st :
  connected_at p st → connected_at p (with_new_socket raw st).
Proof.
  intros Hc. eapply connected_at_other_insert; [|reflexivity|done].
  destruct Hc as (s & Hs & _). destruct (next_address_fresh st) as [_ Hf].
  intros E. rewrite E in Hf. congruence.
Qed.

Lemma connected_at_registered p socket callback cstate s st :
  heap st !! socket = Some s →
  connected_at p st → connected_at p (registered socket callback cstate s st).
Proof.
  intros Hs (s0 & Hs0 & Hc). unfold connected_at. simpl.
  destruct (decide (socket = p)) as [->|Hne].
  - rewrite lookup_insert_eq. eexists. split; [done|]. simpl. congruence.
  - rewrite lookup_insert_ne by done. eauto.
Qed.

Lemma connected_at_unregistered p socket s st :
  heap st !! socket = Some s →
  connected_at p st → connected_at p (unregistered socket s st).
Proof.
  intros Hs (s0 & Hs0 & Hc). unfold connected_at, unregistered.
  destruct (non_null (ReadCallback s)); simpl; [|eauto].
  destruct (decide (socket = p)) as [->|Hne].
  - rewrite lookup_insert_eq. eexists. split; [done|]. simpl. congruence.
  - rewrite lookup_insert_ne by done. eauto.
Qed.

Lemma new_socket_connected raw st : connected_at (next_address st) (with_new_socket raw st).
Proof. eexists. split; [apply lookup_insert_eq|done]. Qed.

Lemma hands_out_trans p st st1 st' :
  (∀ q, connected_at q st → connected_at q st1) →
  hands_out p st1 st' → hands_out p st st'.
Proof. intros Hkeep [Hnew Hold]. split; auto. Qed.

Lemma ConnectIP_hands_out os ip port st p st' :
  SAL_Socket_ConnectIP os ip port st = Done p st' → hands_out p st st'.
Proof.
  intros H. apply ConnectIP_done_inv in H as [[-> ->]|[-> ->]]; split.
  - done.
  - intros q Hq. eapply connected_at_same_heap; [|exact Hq]. reflexivity.
  - intros _. apply (new_socket_connected _ (set_winsockInitialized true st)).
  - intros q Hq. apply connected_at_new_socket. by eapply connected_at_same_heap.
Qed.

Lemma Accept_hands_out os listener acceptedAddress st p st' :
  SAL_Socket_Accept os listener acceptedAddress st = Done p st' → hands_out p st st'.
Proof.
  intros H. apply Accept_done_inv in H as [[-> ->]|(raw & v & -> & ->)];
    split; try done.
  - intros _. apply (new_socket_connected raw (with_word acceptedAddress v st)).
  - intros q Hq. apply connected_at_new_socket.
    by eapply connected_at_same_heap.
Qed.

Lemma connect_first_hands_out slots i len answers port st p st' :
  connect_first slots i len answers port st = Done p st' → hands_out p st st'.
Proof.
  revert i st. induction slots as [|a rest IH]; intros i st H; simpl in H.
  - case_bool_decide; [discriminate|]. unfold_M. injection H as <- <-. by split.
  - case_bool_decide; [|unfold_M; injection H as <- <-; by split].
    apply bind_done_inv in H as (s & st1 & Hc & H).
    apply ConnectIP_hands_out in Hc as [Hnew Hold].
    destruct (non_null s) eqn:E.
    + unfold_M. injection H as <- <-. by split.
    + case_bool_decide; [discriminate|].
      eapply hands_out_trans; [exact Hold|]. by eapply IH.
Qed.

Lemma Connect_hands_out os host answers port st p st' :
  SAL_Socket_Connect os host answers port st = Done p st' → hands_out p st st'.
Proof.
  unfold SAL_Socket_Connect. intros H.
  rewrite (bind_done _ _ _ _ _ (ensure_winsock_done st)) in H.
  apply (hands_out_trans p st (set_winsockInitialized true st) st').
  { intros q Hq. eapply connected_at_same_heap; [|exact Hq]. reflexivity. }
  case_bool_decide.
  - destruct host as [hostEntry|]; [|discriminate].
    by eapply connect_first_hands_out.
  - by eapply ConnectIP_hands_out.
Qed.

Lemma Listen_done_inv os st p st' :
  SAL_Socket_Listen os st = Done p st' →
  (p = NULL ∧ st' = set_winsockInitialized true st) ∨
  (p = next_address st ∧
   st' = with_new_socket (socket_result os) (set_winsockInitialized true st)).
Proof.
  unfold SAL_Socket_Listen. intros H.
  rewrite (bind_done _ _ _ _ _ (ensure_winsock_done st)) in H.
  repeat (case_bool_decide; [injection H as <- <-; auto|]).
  right.
  assert (Heq : (Allocate os ≫= λ listener,
                   store listener (set_ReadCallback NULL);;
                   store listener (set_ReadCallbackState NULL);;
                   store listener (set_Connected true);;
                   store listener (set_LastError 0);;
                   store listener (set_RawSocket (socket_result os));;
                   ret listener) (set_winsockInitialized true st)
                = Done (next_address st)
                    (with_new_socket (socket_result os)
                       (set_winsockInitialized true st))).
  { unfold Allocate, with_new_socket, next_address. unfold_M.
    destruct st as [h l w r ws lt nt cw]; simpl.
    set (q := fresh _). unfold set_heap; simpl. heap_simpl. reflexivity. }
  rewrite Heq in H. injection H as <- <-. auto.
Qed.

Lemma Listen_hands_out os st p st' :
  SAL_Socket_Listen os st = Done p st' → hands_out p st st'.
Proof.
  intros H. apply Listen_done_inv in H as [[-> ->]|[-> ->]]; split.
  - done.
  - intros q Hq. eapply connected_at_same_heap; [|exact Hq]. reflexivity.
  - intros _. apply (new_socket_connected _ (set_winsockInitialized true st)).
  - intros q Hq. apply connected_at_new_socket. by eapply connected_at_same_heap.
Qed.

Lemma discard_done_inv {A} (m : M A) st st' :
  discard m st = Done tt st' → ∃ a, m st = Done a st'.
Proof.
  intros H. apply bind_done_inv in H as (a & st1 & H & Hr).
  unfold_M. injection Hr as <-. eauto.
Qed.

Lemma run_call_keeps_connected p c st st' :
  closes p c = false → run_call c st = Done tt st' →
  connected_at p st → connected_at p st'.
Proof.
  intros Hc H Hp. destruct c; simpl in *.
  - apply discard_done_inv in H as [q H].
    destruct (Connect_hands_out _ _ _ _ _ _ _ H) as [_ Hold]. auto.
  - apply discard_done_inv in H as [q H].
    destruct (ConnectIP_hands_out _ _ _ _ _ _ H) as [_ Hold]. auto.
  - apply discard_done_inv in H as [q H].
    destruct (Listen_hands_out _ _ _ _ H) as [_ Hold]. auto.
  - apply discard_done_inv in H as [q H].
    destruct (Accept_hands_out _ _ _ _ _ _ H) as [_ Hold]. auto.
  - apply bool_decide_eq_false in Hc.
    destruct (Close_done_inv _ _ _ H) as (_ & s & Hs & ->).
    eapply connected_at_other_insert; [done|reflexivity|].
    by apply connected_at_unregistered.
  - apply (read_only_discard _ (read_only_Read _ _ _ _)) in H as ->. done.
  - apply (read_only_discard _ (read_only_Write _ _ _ _)) in H as ->. done.
  - destruct (SetReadCallback_done_inv _ _ _ _ _ H) as (_ & _ & _ & s & Hs & ->).
    by apply connected_at_registered.
  - destruct (UnsetSocketCallback_done_inv _ _ _ H) as (_ & s & Hs & ->).
    by apply connected_at_unregistered.
  - rewrite ClearCallbacks_done in H. injection H as <-.
    by eapply connected_at_same_heap.
  - apply (read_only_discard _ (read_only_worker_cycle _ _)) in H as ->. done.
Qed.

Lemma run_calls_keep_connected p cs st st' :
  forallb (λ c, negb (closes p c)) cs = true →
  run_calls cs st = Done tt st' →
  connected_at p st → connected_at p st'.
Proof.
  revert st. induction cs as [|c cs IH]; simpl; intros st Hcs H Hp.
  - unfold_M. by injection H as <-.
  - apply andb_true_iff in Hcs as [Hc Hcs]. apply negb_true_iff in Hc.
    apply bind_done_inv in H as ([] & st1 & H1 & H2).
    eapply IH; [done|done|]. by eapply run_call_keeps_connected.
Qed.

(** *** Entries of the list are live sockets with callbacks *)

Lemma invariant_sound st : engine_invariant st → registrations_sound st.
Proof.
  intros [(Hnd & Hlive & Hiff) _ Hnn]. split; [done|].
  intros p Hp. split; [by intros ->|].
  destruct (Hlive p Hp) as [s Hs]. exists s. split; [done|].
  by apply (Hiff _ _ Hs).
Qed.

Lemma initial_state_sound h : registrations_sound (initial_state h).
Proof. split; [constructor|]. intros p Hp. by apply elem_of_nil in Hp. Qed.

Lemma sound_new_socket raw st :
  registrations_sound st → registrations_sound (with_new_socket raw st).
Proof.
  intros [Hnd Hlive]. split; [done|]. intros p Hp. simpl in *.
  destruct (Hlive p Hp) as (Hnn & s & Hs & Hcb). split; [done|].
  exists s. split; [|done].
  rewrite lookup_insert_ne; [done|].
  destruct (next_address_fresh st) as [_ Hf]. intros E. rewrite E in Hf. congruence.
Qed.

Lemma allocates_sound st st' :
  allocates st st' → registrations_sound st → registrations_sound st'.
Proof.
  induction 1 as [st | st st' _ IH | p v st st' _ IH | raw st st' _ IH];
    intros Hs; [done| | |].
  - by apply IH.
  - by apply IH.
  - by apply IH, sound_new_socket.
Qed.

Lemma allocates_trans st st1 st' :
  allocates st st1 → allocates st1 st' → allocates st st'.
Proof.
  induction 1 as [st | st st1 _ IH | p v st st1 _ IH | raw st st1 _ IH];
    intros H2; [done| | |].
  - apply allocates_winsock. by apply IH.
  - eapply allocates_word. by apply IH.
  - eapply allocates_socket. by apply IH.
Qed.

Lemma ConnectIP_allocates os ip port st p st' :
  SAL_Socket_ConnectIP os ip port st = Done p st' → allocates st st'.
Proof.
  intros H. apply ConnectIP_done_inv in H as [[_ ->]|[_ ->]];
    apply allocates_winsock; [|eapply allocates_socket]; apply allocates_none.
Qed.

Lemma Listen_allocates os st p st' :
  SAL_Socket_Listen os st = Done p st' → allocates st st'.
Proof.
  intros H. apply Listen_done_inv in H as [[_ ->]|[_ ->]];
    apply allocates_winsock; [|eapply allocates_socket]; apply allocates_none.
Qed.

Lemma Accept_allocates os listener acceptedAddress st p st' :
  SAL_Socket_Accept os listener acceptedAddress st = Done p st' → allocates st st'.
Proof.
  intros H. apply Accept_done_inv in H as [[_ ->]|(raw & v & _ & ->)];
    [|eapply allocates_word, allocates_socket]; apply allocates_none.
Qed.

Lemma connect_first_allocates slots i len answers port st p st' :
  connect_first slots i len answers port st = Done p st' → allocates st st'.
Proof.
  revert i st. induction slots as [|a rest IH]; intros i st H; simpl in H.
  - case_bool_decide; [discriminate|].
    unfold_M. injection H as _ <-. apply allocates_none.
  - case_bool_decide; [|unfold_M; injection H as _ <-; apply allocates_none].
    apply bind_done_inv in H as (s & st1 & Hc & H).
    apply ConnectIP_allocates in Hc.
    destruct (non_null s).
    + unfold_M. by injection H as _ <-.
    + case_bool_decide; [discriminate|].
      eapply allocates_trans; [exact Hc|]. by eapply IH.
Qed.

Lemma Connect_allocates os host answers port st p st' :
  SAL_Socket_Connect os host answers port st = Done p st' → allocates st st'.
Proof.
  unfold SAL_Socket_Connect. intros H.
  rewrite (bind_done _ _ _ _ _ (ensure_winsock_done st)) in H.
  apply allocates_winsock. case_bool_decide.
  - destruct host as [hostEntry|]; [|discriminate].
    by eapply connect_first_allocates.
  - by eapply ConnectIP_allocates.
Qed.

Lemma started_list_subseteq st p :
  p ∈ asyncSocketList (started st) → p ∈ asyncSocketList st.
Proof.
  unfold started. destruct (asyncWorkerRunning st); [done|].
  intros Hp. by apply elem_of_nil in Hp.
Qed.

Lemma started_list_NoDup st :
  NoDup (asyncSocketList st) → NoDup (asyncSocketList (started st)).
Proof. unfold started. destruct (asyncWorkerRunning st); [done|]. constructor. Qed.

Lemma sound_registered socket callback cstate s st :
  socket ≠ NULL → callback ≠ NULL → heap st !! socket = Some s →
  registrations_sound st →
  registrations_sound (registered socket callback cstate s st).
Proof.
  intros Hsock Hcb Hs [Hnd Hlive].
  assert (Hold : ∀ p, p ∈ asyncSocketList (started st) →
            p ≠ NULL ∧
            ∃ s', <[socket := mkSocket (RawSocket s) (Connected s) (LastError s)
                                       callback cstate]> (heap st) !! p = Some s' ∧
                  ReadCallback s' ≠ NULL).
  { intros p Hp. apply started_list_subseteq in Hp.
    destruct (Hlive p Hp) as [Hnn Hp'']. split; [done|].
    destruct (decide (p = socket)) as [->|Hne].
    - rewrite lookup_insert_eq. eauto.
    - rewrite lookup_insert_ne by done. auto. }
  split; simpl.
  - destruct (is_null (ReadCallback s)) eqn:E; [|by apply started_list_NoDup].
    apply is_null_true in E. apply NoDup_app.
    split; [by apply started_list_NoDup|]. split; [|apply NoDup_singleton].
    intros p Hp Hp'. apply list_elem_of_singleton in Hp' as ->.
    apply started_list_subseteq in Hp.
    destruct (Hlive _ Hp) as (_ & s' & Hs' & Hcb'). congruence.
  - intros p Hp. destruct (is_null (ReadCallback s)); [|by apply Hold].
    apply elem_of_app in Hp as [Hp|Hp]; [by apply Hold|].
    apply list_elem_of_singleton in Hp as ->. split; [done|].
    rewrite lookup_insert_eq. eauto.
Qed.

Lemma sound_unregistered socket s st :
  heap st !! socket = Some s →
  registrations_sound st →
  registrations_sound (unregistered socket s st) ∧
  socket ∉ asyncSocketList (unregistered socket s st).
Proof.
  intros Hs [Hnd Hlive]. unfold unregistered.
  destruct (non_null (ReadCallback s)) eqn:E; simpl.
  - split; [split|]; [by apply remove_first_NoDup| |by apply remove_first_gone].
    intros p Hp. simpl in *.
    assert (p ≠ socket) by (intros ->; by apply remove_first_gone in Hp).
    rewrite lookup_insert_ne by done. by apply Hlive, (remove_first_subseteq socket).
  - apply non_null_false in E. split; [done|]. intros Hp.
    destruct (Hlive _ Hp) as (_ & s' & Hs' & Hcb'). congruence.
Qed.

Lemma sound_closed socket s st :
  heap st !! socket = Some s →
  registrations_sound st →
  registrations_sound (closed socket s st) ∧
  socket ∉ asyncSocketList (closed socket s st).
Proof.
  intros Hs Hsound.
  destruct (sound_unregistered socket s st Hs Hsound) as [[Hnd Hlive] Hout].
  split; [|done]. split; [done|]. intros p Hp.
  change (asyncSocketList (closed socket s st))
    with (asyncSocketList (unregistered socket s st)) in Hp.
  assert (p ≠ socket) by (by intros ->).
  unfold closed. simpl. rewrite lookup_insert_ne by done. by apply Hlive.
Qed.

Lemma run_call_sound c st st' :
  run_call c st = Done tt st' → registrations_sound st → registrations_sound st'.
Proof.
  intros H Hs. destruct c; simpl in *.
  - apply discard_done_inv in H as [q H].
    by apply (allocates_sound _ _ (Connect_allocates _ _ _ _ _ _ _ H)).
  - apply discard_done_inv in H as [q H].
    by apply (allocates_sound _ _ (ConnectIP_allocates _ _ _ _ _ _ H)).
  - apply discard_done_inv in H as [q H].
    by apply (allocates_sound _ _ (Listen_allocates _ _ _ _ H)).
  - apply discard_done_inv in H as [q H].
    by apply (allocates_sound _ _ (Accept_allocates _ _ _ _ _ _ H)).
  - destruct (Close_done_inv _ _ _ H) as (_ & s & Hsock & ->).
    by apply sound_closed.
  - apply (read_only_discard _ (read_only_Read _ _ _ _)) in H as ->. done.
  - apply (read_only_discard _ (read_only_Write _ _ _ _)) in H as ->. done.
  - destruct (SetReadCallback_done_inv _ _ _ _ _ H) as (Hn & Hcb & _ & s & Hsock & ->).
    by apply sound_registered.
  - destruct (UnsetSocketCallback_done_inv _ _ _ H) as (_ & s & Hsock & ->).
    by apply sound_unregistered.
  - rewrite ClearCallbacks_done in H. injection H as <-.
    split; [constructor|]. intros p Hp. by apply elem_of_nil in Hp.
  - apply (read_only_discard _ (read_only_worker_cycle _ _)) in H as ->. done.
Qed.

Lemma run_calls_sound cs st st' :
  run_calls cs st = Done tt st' → registrations_sound st → registrations_sound st'.
Proof.
  revert st. induction cs as [|c cs IH]; simpl; intros st H Hs.
  - unfold_M. by injection H as <-.
  - apply bind_done_inv in H as ([] & st1 & H1 & H2).
    eapply IH; [done|]. by eapply run_call_sound.
Qed.

Lemma closed_socket socket s st :
  heap (closed socket s st) !! socket
  = Some (mkSocket INVALID_SOCKET false (LastError s) NULL
                   (if non_null (ReadCallback s) then NULL else ReadCallbackState s)).
Proof. unfold closed. simpl. by rewrite lookup_insert_eq. Qed.

Lemma closed_list socket s st :
  asyncSocketList (closed socket s st) = asyncSocketList (unregistered socket s st).
Proof. reflexivity. Qed.

(** C8: a [SAL_Socket_Close] that returns has run
    [SAL_Socket_UnsetSocketCallback] on the socket, whose list is the one it
    leaves, and leaves the socket with [Connected] false and no callback; in
    a state whose list entries are distinct live sockets with callbacks, as
    is every state the calls of the module and the cycles of the worker
    lead to from the start, the socket is then not in the list.  A socket
    handed out by [SAL_Socket_Connect], [SAL_Socket_ConnectIP] or
    [SAL_Socket_Accept] has [Connected] true, and every sequence of calls of
    the module and cycles of the worker that does not close that socket
    keeps it true. *)
Theorem Close_unregisters_and_disconnects :
  (∀ socket st st',
     SAL_Socket_Close socket st = Done tt st' →
     (∃ st1, SAL_Socket_UnsetSocketCallback socket st = Done tt st1 ∧
             asyncSocketList st' = asyncSocketList st1) ∧
     (∃ s', heap st' !! socket = Some s' ∧
            Connected s' = false ∧ ReadCallback s' = NULL) ∧
     (registrations_sound st → socket ∉ asyncSocketList st')) ∧
  (∀ h cs st,
     run_calls cs (initial_state h) = Done tt st → registrations_sound st) ∧
  (∀ os host answers port st p st',
     SAL_Socket_Connect os host answers port st = Done p st' → p ≠ NULL →
     connected_at p st') ∧
  (∀ os ip port st p st',
     SAL_Socket_ConnectIP os ip port st = Done p st' → p ≠ NULL →
     connected_at p st') ∧
  (∀ os listener acceptedAddress st p st',
     SAL_Socket_Accept os listener acceptedAddress st = Done p st' → p ≠ NULL →
     connected_at p st') ∧
  (∀ p cs st st',
     forallb (λ c, negb (closes p c)) cs = true →
     run_calls cs st = Done tt st' →
     connected_at p st → connected_at p st').
Proof.
  split; [|split; [|split; [|split; [|split]]]].
  - intros socket st st' H.
    destruct (Close_done_inv _ _ _ H) as (Hn & s & Hs & ->).
    split; [|split].
    + exists (unregistered socket s st). split; [|apply closed_list].
      by apply UnsetSocketCallback_done.
    + eexists. split; [apply closed_socket|]. done.
    + intros Hsound. by apply sound_closed.
  - intros h cs st H. eapply run_calls_sound; [exact H|]. apply initial_state_sound.
  - intros os host answers port st p st' H Hp.
    destruct (Connect_hands_out _ _ _ _ _ _ _ H) as [Hnew _]. auto.
  - intros os ip port st p st' H Hp.
    destruct (ConnectIP_hands_out _ _ _ _ _ _ H) as [Hnew _]. auto.
  - intros os listener acceptedAddress st p st' H Hp.
    destruct (Accept_hands_out _ _ _ _ _ _ H) as [Hnew _]. auto.
  - apply run_calls_keep_connected.
Qed.

Lemma Close_unregisters_and_disconnects_witness :
  connected_at 3%N (state_of (run_calls example_session example_accepted)) ∧
  ∃ s', heap (state_of (SAL_Socket_Close 3%N
                          (state_of (run_calls example_session example_accepted))))
          !! 3%N = Some s' ∧
        Connected s' = false ∧ ReadCallback s' = NULL.
Proof.
  destruct Close_unregisters_and_disconnects
    as (HClose & _ & _ & _ & HAccept & Hkeep).
  split.
  - apply (Hkeep 3%N example_session example_accepted).
    + reflexivity.
    + vm_compute. reflexivity.
    + apply (HAccept example_os 1%N 64%N (initial_state two_sockets)).
      * vm_compute. reflexivity.
      * discriminate.
  - apply (HClose 3%N (state_of (run_calls example_session example_accepted))).
    vm_compute. reflexivity.
Defined.

(** *** Restart after shutdown *)

(** A registration right after a shutdown starts a new worker on an empty
    list, and appends the socket only if its [ReadCallback] field is null:
    the shutdown leaves the fields of the sockets it drops as they are. *)
Lemma SetReadCallback_after_ClearCallbacks socket callback cstate st s :
  socket ≠ NULL → callback ≠ NULL → cstate ≠ NULL →
  heap st !! socket = Some s →
  ∃ st', (SAL_Socket_ClearCallbacks;;
          SAL_Socket_SetReadCallback socket callback cstate) st = Done tt st' ∧
         asyncWorkerRunning st' = true ∧
         asyncWorker st' = nextThread st ∧
         asyncWorker st' ∈ liveThreads st' ∧
         asyncSocketList st'
         = (if is_null (ReadCallback s) then [socket] else []) ∧
         ∃ s', heap st' !! socket = Some s' ∧ ReadCallback s' = callback.
Proof.
  intros H1 H2 H3 Hs. eexists. split.
  - rewrite (bind_done _ _ _ _ _ (ClearCallbacks_done st)).
    apply (SetReadCallback_done _ _ _ _ s); done.
  - simpl. split; [done|]. split; [done|]. split; [left|].
    split; [by destruct (is_null (ReadCallback s))|].
    rewrite lookup_insert_eq. eauto.
Qed.

(** C7: registering a socket, shutting down and registering the same socket
    again returns with the worker flag up and a new worker thread, but with
    an empty [asyncSocketList] although the socket's [ReadCallback] is set:
    a cycle of the new worker in which every handle is readable queries
    nothing and calls nothing.  [SAL_Socket_ClearCallbacks] does not clear
    the callback fields, so the test on [ReadCallback] skips the append. *)
Theorem restart_drops_socket_registered_before_shutdown :
  ∃ st, run_calls restart_calls (initial_state two_sockets) = Done tt st ∧
        asyncWorkerRunning st = true ∧
        asyncWorker st = 2%nat ∧ liveThreads st = [2%nat] ∧
        (ReadCallback <$> heap st !! 1%N) = Some 100%N ∧
        asyncSocketList st = [] ∧
        worker_cycle example_os (mkLocals NULL 0) st
        = Done (mkLocals NULL 0, mkTrace [] []) st.
Proof.
  eexists. split; [vm_compute; reflexivity|].
  repeat split; vm_compute; reflexivity.
Qed.

(** *** The read set *)

Lemma FD_SETSIZE_pos : (0 < FD_SETSIZE)%nat.
Proof. unfold FD_SETSIZE. lia. Qed.

(** From here on [FD_SETSIZE] is a number that is not zero, and no proof
    step looks into it. *)
#[local] Opaque FD_SETSIZE.

Lemma FD_SET_elem fd readSet x :
  (length readSet < FD_SETSIZE)%nat →
  x ∈ FD_SET fd readSet ↔ x = fd ∨ x ∈ readSet.
Proof.
  intros Hlen. unfold FD_SET. case_bool_decide as Hin.
  - split; [auto|]. intros [->|]; done.
  - rewrite bool_decide_eq_true_2 by done.
    rewrite elem_of_app, list_elem_of_singleton. tauto.
Qed.

Lemma FD_SET_length fd readSet :
  (length readSet ≤ length (FD_SET fd readSet) ≤ S (length readSet))%nat.
Proof.
  unfold FD_SET. repeat case_bool_decide; rewrite ?length_app; simpl; lia.
Qed.

Lemma FD_SET_capacity fd readSet :
  (length readSet ≤ FD_SETSIZE)%nat → (length (FD_SET fd readSet) ≤ FD_SETSIZE)%nat.
Proof.
  unfold FD_SET. repeat case_bool_decide; rewrite ?length_app; simpl; lia.
Qed.

Lemma FD_SET_NoDup fd readSet : NoDup readSet → NoDup (FD_SET fd readSet).
Proof.
  intros Hnd. unfold FD_SET. repeat case_bool_decide; try done.
  apply NoDup_app. split; [done|]. split; [|apply NoDup_singleton].
  intros x Hx Hx'. apply list_elem_of_singleton in Hx' as ->. done.
Qed.

(** *** The first loop *)

Lemma filled_queried st n rest sock it readSet :
  (filled st n rest sock it readSet).2
  = foldl (λ acc p, FD_SET (handle_at st p) acc) readSet (take n rest).
Proof.
  revert rest sock it readSet. induction n as [|n IH]; intros rest sock it readSet.
  - by rewrite take_0.
  - destruct rest as [|p rest]; simpl; [done|]. apply IH.
Qed.

Lemma filled_cursor st n rest sock it readSet :
  selectIterator (filled st n rest sock it readSet).1
  = (it + length (take n rest))%nat.
Proof.
  revert rest sock it readSet. induction n as [|n IH]; intros rest sock it readSet.
  - rewrite take_0. simpl. lia.
  - destruct rest as [|p rest]; simpl; [lia|]. rewrite IH. lia.
Qed.

Lemma filled_socket st n rest sock it readSet :
  NULL ∉ rest →
  socket (filled st (S n) rest sock it readSet).1 = NULL ↔ (length rest < S n)%nat.
Proof.
  revert rest sock it readSet. induction n as [|n IH]; intros rest sock it readSet Hnn.
  - destruct rest as [|p rest]; simpl; [split; [lia|done]|].
    apply not_elem_of_cons in Hnn as [Hp _].
    split; [by intros -> | lia].
  - destruct rest as [|p rest]; [simpl; split; [lia|done]|].
    apply not_elem_of_cons in Hnn as [_ Hnn].
    change (filled st (S (S n)) (p :: rest) sock it readSet)
      with (filled st (S n) rest p (S it) (FD_SET (handle_at st p) readSet)).
    rewrite IH by done. simpl. lia.
Qed.

Lemma foldl_FD_SET_elem st b readSet x :
  (length readSet + length b ≤ FD_SETSIZE)%nat →
  x ∈ foldl (λ acc p, FD_SET (handle_at st p) acc) readSet b
  ↔ x ∈ readSet ∨ ∃ p, p ∈ b ∧ handle_at st p = x.
Proof.
  revert readSet. induction b as [|p b IH]; intros readSet Hlen; simpl in *.
  - split; [auto|]. intros [|(p & Hp & _)]; [done|]. by apply elem_of_nil in Hp.
  - pose proof (FD_SET_length (handle_at st p) readSet).
    rewrite IH by lia. rewrite FD_SET_elem by lia. split.
    + intros [[->|]|(q & Hq & <-)]; [right|auto|right].
      * exists p. split; [left|done].
      * exists q. split; [by right|done].
    + intros [|(q & Hq & <-)]; [auto|].
      apply elem_of_cons in Hq as [->|Hq]; [auto|]. right. eauto.
Qed.

Lemma foldl_FD_SET_NoDup st b readSet :
  NoDup readSet → NoDup (foldl (λ acc p, FD_SET (handle_at st p) acc) readSet b).
Proof.
  revert readSet. induction b as [|p b IH]; intros readSet Hnd; simpl; [done|].
  by apply IH, FD_SET_NoDup.
Qed.

Lemma foldl_FD_SET_capacity st b readSet :
  (length readSet ≤ FD_SETSIZE)%nat →
  (length (foldl (λ acc p, FD_SET (handle_at st p) acc) readSet b) ≤ FD_SETSIZE)%nat.
Proof.
  revert readSet. induction b as [|p b IH]; intros readSet Hlen; simpl; [done|].
  by apply IH, FD_SET_capacity.
Qed.

Lemma cycle_fill_queried st w :
  (cycle_fill st w).2
  = foldl (λ acc p, FD_SET (handle_at st p) acc) FD_ZERO (batch_sockets st w).
Proof. apply filled_queried. Qed.

Lemma batch_sockets_length st w : (length (batch_sockets st w) ≤ FD_SETSIZE)%nat.
Proof. unfold batch_sockets. rewrite length_take. lia. Qed.

Lemma queried_elem st w x :
  x ∈ (cycle_fill st w).2 ↔ ∃ p, p ∈ batch_sockets st w ∧ handle_at st p = x.
Proof.
  rewrite cycle_fill_queried, foldl_FD_SET_elem.
  - split; [|auto]. intros [Hx|]; [|done]. by apply elem_of_nil in Hx.
  - pose proof (batch_sockets_length st w). simpl. lia.
Qed.

Lemma queried_NoDup st w : NoDup (cycle_fill st w).2.
Proof. rewrite cycle_fill_queried. apply foldl_FD_SET_NoDup. constructor. Qed.

Lemma queried_capacity st w : (length (cycle_fill st w).2 ≤ FD_SETSIZE)%nat.
Proof.
  rewrite cycle_fill_queried. apply foldl_FD_SET_capacity. simpl. lia.
Qed.

Lemma batch_sockets_registered st w p :
  p ∈ batch_sockets st w → p ∈ asyncSocketList st.
Proof.
  unfold batch_sockets. intros Hp.
  apply elem_of_take in Hp as (i & Hi & _). rewrite lookup_drop in Hi.
  by eapply list_elem_of_lookup_2.
Qed.

(** *** One cycle, from the code to its description *)

Lemma IterateNext_done st it :
  AsyncLinkedList_IterateNext it st
  = Done (match asyncSocketList st !! it with
          | Some p => (p, S it)
          | None => (NULL, it)
          end) st.
Proof.
  unfold AsyncLinkedList_IterateNext. unfold_M.
  by destruct (asyncSocketList st !! it).
Qed.

Lemma registered_socket_live st p :
  registrations_sound st → p ∈ asyncSocketList st →
  p ≠ NULL ∧ ∃ s, heap st !! p = Some s ∧ ReadCallback s ≠ NULL.
Proof. intros [_ Hlive]. apply Hlive. Qed.

Lemma fill_readSet_done st n w readSet :
  registrations_sound st →
  fill_readSet n w readSet st
  = Done (filled st n (drop (selectIterator w) (asyncSocketList st))
                 (socket w) (selectIterator w) readSet) st.
Proof.
  intros Hinv. revert w readSet.
  induction n as [|n IH]; intros [sock it] readSet; simpl; [done|].
  rewrite (bind_done _ _ _ _ _ (IterateNext_done st it)).
  destruct (asyncSocketList st !! it) as [p|] eqn:Hit; simpl.
  - destruct (registered_socket_live st p Hinv) as (Hp & s & Hs & _).
    { by eapply list_elem_of_lookup_2. }
    apply is_null_false in Hp. rewrite Hp.
    rewrite (bind_done _ _ st s st) by (unfold load; by rewrite Hs).
    rewrite IH. simpl. rewrite (drop_S _ _ _ Hit). simpl.
    unfold handle_at. by rewrite Hs.
  - apply lookup_ge_None_1 in Hit. by rewrite drop_ge.
Qed.

Lemma for_each_done {A} (body : A → M (list callback_call))
    (f : A → list callback_call) (l : list A) st :
  (∀ a, a ∈ l → body a st = Done (f a) st) →
  for_each body l st = Done (l ≫= f) st.
Proof.
  induction l as [|a l IH]; intros Hbody; simpl; [done|].
  rewrite (bind_done _ _ _ _ _ (Hbody a (list_elem_of_here _ _))).
  rewrite (bind_done _ _ _ _ _ (IH (λ b Hb, Hbody b (list_elem_of_further _ _ _ Hb)))).
  done.
Qed.

Lemma Read_done os st p s :
  p ≠ NULL → heap st !! p = Some s →
  SAL_Socket_Read os p asyncSocketBuffer CALLBACK_BUFFER_SIZE st
  = Done (read_result os s) st.
Proof.
  intros Hp Hs. apply non_null_true in Hp.
  unfold SAL_Socket_Read, read_result.
  change (to_int32 CALLBACK_BUFFER_SIZE) with CALLBACK_BUFFER_SIZE.
  unfold_M. simpl. rewrite Hp. simpl.
  rewrite Hs. by case_bool_decide.
Qed.

Lemma dispatch_entry_done os st fd p :
  registrations_sound st → p ∈ asyncSocketList st →
  dispatch_entry os fd p st = Done (dispatched os st fd p) st.
Proof.
  intros Hinv Hin.
  destruct (registered_socket_live st p Hinv Hin) as (Hp & s & Hs & Hcb).
  unfold dispatch_entry, dispatched. rewrite Hs.
  rewrite (bind_done _ _ st s st) by (unfold load; by rewrite Hs).
  case_bool_decide; [|done].
  rewrite (bind_done _ _ _ _ _ (Read_done os st p s Hp Hs)).
  apply is_null_false in Hcb. by rewrite Hcb.
Qed.

Lemma worker_cycle_done os w st :
  registrations_sound st →
  worker_cycle os w st = Done (next_locals st w, cycle_trace_of os st w) st.
Proof.
  intros Hinv. unfold worker_cycle.
  rewrite (bind_done _ _ _ _ _ (fill_readSet_done st FD_SETSIZE w FD_ZERO Hinv)).
  fold (cycle_fill st w).
  erewrite bind_done; [reflexivity|].
  apply for_each_done. intros fd _.
  rewrite (bind_done _ _ st st st) by done.
  apply for_each_done. intros p Hp. by apply dispatch_entry_done.
Qed.

Lemma cycle_calls_elem os st readSet c :
  c ∈ cycle_calls os st readSet ↔
  ∃ s, entry c ∈ asyncSocketList st ∧ heap st !! entry c = Some s ∧
       RawSocket s ∈ readSet ∧
       c = mkCall (entry c) (ReadCallback s) asyncSocketBuffer (read_result os s)
                  (ReadCallbackState s).
Proof.
  unfold cycle_calls. rewrite list_elem_of_bind. split.
  - intros (fd & Hc & Hfd). apply list_elem_of_bind in Hc as (p & Hc & Hp).
    unfold dispatched in Hc. destruct (heap st !! p) as [s|] eqn:Hs.
    + case_bool_decide as Hraw; [|by apply elem_of_nil in Hc].
      apply list_elem_of_singleton in Hc as ->. simpl.
      exists s. rewrite Hraw. done.
    + by apply elem_of_nil in Hc.
  - intros (s & Hp & Hs & Hfd & Hc). exists (RawSocket s). split; [|done].
    apply list_elem_of_bind. exists (entry c). split; [|done].
    unfold dispatched. rewrite Hs. rewrite bool_decide_eq_true_2 by done.
    rewrite Hc. simpl. apply list_elem_of_here.
Qed.

(** *** Empty reads *)

(** C2, as stated, fails: with one socket registered and readable and a
    receive that yields nothing, the callback is called with length 0. *)
Lemma empty_read_is_delivered :
  ¬ skips_empty_reads silent_os (mkLocals NULL 0) registered_one.
Proof.
  intros Hskip.
  apply (Hskip (mkLocals NULL 0)
               (mkTrace [0] [mkCall 1%N 100%N asyncSocketBuffer 0 200%N])
               registered_one
               ltac:(vm_compute; reflexivity)
               (mkCall 1%N 100%N asyncSocketBuffer 0 200%N)).
  - apply list_elem_of_here.
  - reflexivity.
Qed.

(** C2, amended: in a state whose list entries are distinct live sockets
    with callbacks, a cycle of the worker returns, and the callbacks called
    are exactly those of the registered sockets whose handle [select]
    reported readable, each with the result of [SAL_Socket_Read] on that
    socket as its length, whatever that result is; when the receive yields
    zero or less, the callback is called with length 0. *)
Theorem worker_calls_back_on_every_read (os : environment) (w : worker_locals)
    (st : state) :
  registrations_sound st →
  ∃ w' t,
    worker_cycle os w st = Done (w', t) st ∧
    (∀ c, c ∈ calls t ↔
          ∃ s n, entry c ∈ asyncSocketList st ∧
                 heap st !! entry c = Some s ∧
                 RawSocket s ∈ select os (queried t) ∧
                 SAL_Socket_Read os (entry c) asyncSocketBuffer
                                 CALLBACK_BUFFER_SIZE st = Done n st ∧
                 c = mkCall (entry c) (ReadCallback s) asyncSocketBuffer n
                            (ReadCallbackState s)) ∧
    (∀ p s, p ∈ asyncSocketList st → heap st !! p = Some s →
            RawSocket s ∈ select os (queried t) →
            recv os (RawSocket s) CALLBACK_BUFFER_SIZE ≤ 0 →
            mkCall p (ReadCallback s) asyncSocketBuffer 0 (ReadCallbackState s)
            ∈ calls t).
Proof.
  intros Hinv. exists (next_locals st w), (cycle_trace_of os st w).
  split; [by apply worker_cycle_done|]. split.
  - intros c. unfold cycle_trace_of. simpl. rewrite cycle_calls_elem. split.
    + intros (s & Hp & Hs & Hfd & Hc). exists s, (read_result os s).
      destruct (registered_socket_live st _ Hinv Hp) as (Hnn & _).
      repeat split; try done. by apply Read_done.
    + intros (s & n & Hp & Hs & Hfd & Hread & Hc). exists s.
      destruct (registered_socket_live st _ Hinv Hp) as (Hnn & _).
      rewrite (Read_done os st _ s Hnn Hs) in Hread. injection Hread as <-.
      done.
  - intros p s Hp Hs Hfd Hrecv. unfold cycle_trace_of. simpl.
    apply cycle_calls_elem. exists s. simpl. repeat split; try done.
    unfold read_result. by rewrite bool_decide_eq_true_2.
Qed.

Lemma registered_one_invariant : engine_invariant registered_one.
Proof.
  apply (perform_all_invariant [Call_SetReadCallback 1 100 200]%N
           (initial_state two_sockets)).
  - apply initial_state_invariant, two_sockets_no_callbacks.
  - vm_compute. reflexivity.
Qed.

Lemma worker_calls_back_on_every_read_witness :
  registrations_sound registered_one ∧
  ∃ w' t, worker_cycle silent_os (mkLocals NULL 0) registered_one
          = Done (w', t) registered_one ∧
          mkCall 1%N 100%N asyncSocketBuffer 0 200%N ∈ calls t.
Proof.
  split; [apply invariant_sound, registered_one_invariant|].
  destruct (worker_calls_back_on_every_read silent_os (mkLocals NULL 0)
              registered_one (invariant_sound _ registered_one_invariant))
    as (w' & t & Hrun & _ & Hzero).
  exists w', t. split; [exact Hrun|].
  assert (Ht : t = mkTrace [0] [mkCall 1%N 100%N asyncSocketBuffer 0 200%N]).
  { vm_compute in Hrun. congruence. }
  apply (Hzero 1%N (mkSocket 0 false 0 100%N 200%N)).
  - vm_compute. apply list_elem_of_here.
  - vm_compute. reflexivity.
  - rewrite Ht. vm_compute. apply list_elem_of_here.
  - vm_compute. discriminate.
Defined.

(** *** Dispatch by handle *)

Lemma dispatch_count_le st fd cs : (dispatch_count st fd cs ≤ length cs)%nat.
Proof. apply length_filter. Qed.

Lemma dispatch_count_app st fd cs1 cs2 :
  dispatch_count st fd (cs1 ++ cs2)
  = (dispatch_count st fd cs1 + dispatch_count st fd cs2)%nat.
Proof. unfold dispatch_count. by rewrite filter_app, length_app. Qed.

Lemma dispatch_count_zero st fd cs :
  (∀ c, c ∈ cs → handle_at st (entry c) ≠ fd) → dispatch_count st fd cs = 0%nat.
Proof.
  unfold dispatch_count. induction cs as [|c cs IH]; intros Hcs; [done|].
  rewrite filter_cons_False by (apply Hcs; left).
  apply IH. intros c' Hc'. apply Hcs. by right.
Qed.

Lemma dispatched_handle os st fd p c :
  c ∈ dispatched os st fd p → entry c = p ∧ handle_at st p = fd.
Proof.
  unfold dispatched, handle_at. destruct (heap st !! p) as [s|]; simpl.
  - case_bool_decide; intros Hc; [|by apply elem_of_nil in Hc].
    by apply list_elem_of_singleton in Hc as ->.
  - intros Hc. by apply elem_of_nil in Hc.
Qed.

Lemma dispatched_length os st fd p : (length (dispatched os st fd p) ≤ 1)%nat.
Proof.
  unfold dispatched. destruct (heap st !! p); [case_bool_decide|]; simpl; lia.
Qed.

Lemma scan_none os st fd (l : list N) :
  (∀ q, q ∈ l → handle_at st q ≠ fd) → l ≫= dispatched os st fd = [].
Proof.
  induction l as [|q l IH]; intros Hl; [done|]. rewrite bind_cons.
  rewrite IH by (intros q' Hq'; apply Hl; by right).
  destruct (dispatched os st fd q) as [|c cs] eqn:E; [done|].
  exfalso. apply (Hl q); [left|].
  eapply (dispatched_handle os st fd q c). rewrite E. left.
Qed.

Lemma scan_at_most_one os st fd (l : list N) :
  NoDup l →
  (∀ p q, p ∈ l → q ∈ l → handle_at st p = handle_at st q → p = q) →
  (length (l ≫= dispatched os st fd) ≤ 1)%nat.
Proof.
  induction 1 as [|p l Hp Hnd IH]; intros Hdist; [simpl; lia|].
  rewrite bind_cons, length_app.
  destruct (decide (handle_at st p = fd)) as [Hfd|Hfd].
  - rewrite (scan_none os st fd l).
    + pose proof (dispatched_length os st fd p). simpl. lia.
    + intros q Hq Hq'. apply Hp.
      rewrite (Hdist p q); [done|left|by right|congruence].
  - assert (dispatched os st fd p = []) as ->.
    { destruct (dispatched os st fd p) as [|c cs] eqn:E; [done|].
      exfalso. apply Hfd. eapply (dispatched_handle os st fd p c).
      rewrite E. left. }
    simpl. apply IH. intros q1 q2 H1 H2. apply Hdist; by right.
Qed.

Lemma cycle_calls_at_most_one os st readSet fd :
  NoDup readSet → NoDup (asyncSocketList st) → distinct_handles st →
  (dispatch_count st fd (cycle_calls os st readSet) ≤ 1)%nat.
Proof.
  intros Hrs Hl Hdist. unfold cycle_calls.
  assert (Hother : ∀ fd', fd' ≠ fd →
            dispatch_count st fd (asyncSocketList st ≫= dispatched os st fd') = 0%nat).
  { intros fd' Hne. apply dispatch_count_zero. intros c Hc.
    apply list_elem_of_bind in Hc as (p & Hc & _).
    apply dispatched_handle in Hc as [-> ->]. done. }
  induction Hrs as [|fd' readSet Hfd' Hrs IH]; [change (0 ≤ 1)%nat; lia|].
  rewrite bind_cons, dispatch_count_app. cbv beta.
  destruct (decide (fd' = fd)) as [->|Hne].
  - rewrite (dispatch_count_zero st fd (readSet ≫= _)).
    + pose proof (dispatch_count_le st fd (asyncSocketList st ≫= dispatched os st fd)).
      pose proof (scan_at_most_one os st fd _ Hl Hdist). lia.
    + intros c Hc. apply list_elem_of_bind in Hc as (fd' & Hc & Hin).
      apply list_elem_of_bind in Hc as (p & Hc & _).
      apply dispatched_handle in Hc as [-> ->]. by intros ->.
  - rewrite Hother by done. simpl. apply IH.
Qed.

Lemma select_subseteq os readSet fd : fd ∈ select os readSet → fd ∈ readSet.
Proof. unfold select. rewrite list_elem_of_filter. tauto. Qed.

Lemma select_NoDup os readSet : NoDup readSet → NoDup (select os readSet).
Proof. apply NoDup_filter. Qed.

(** C3, as stated, fails: with two registered sockets that share the handle
    0 (both fresh from [SAL_Socket_Init]), one cycle serves the readable
    handle 0 twice. *)
Lemma shared_handle_is_served_twice :
  ¬ dispatches_through_batch silent_os (mkLocals NULL 0) registered_two.
Proof.
  intros Hbatch.
  destruct (Hbatch (mkLocals NULL 0)
              (mkTrace [0] [mkCall 1%N 100%N asyncSocketBuffer 0 200%N;
                            mkCall 2%N 101%N asyncSocketBuffer 0 201%N])
              registered_two ltac:(vm_compute; reflexivity)) as [_ Hcount].
  specialize (Hcount 0 ltac:(vm_compute; apply list_elem_of_here)).
  vm_compute in Hcount. lia.
Qed.

(** C3, amended: in a state whose list entries are distinct live sockets
    with callbacks, the dispatch step of a cycle finds the sockets to call
    back by scanning the shared [asyncSocketList] once for every handle
    [select] reported readable, and calls back every entry whose [RawSocket]
    equals that handle; the read set holds exactly the handles of the
    cycle's batch.  When no two registered sockets share a handle, only
    sockets of the cycle's batch are called back, and each handle is served
    at most once in the cycle. *)
Theorem dispatch_scans_registration_list (os : environment) (w : worker_locals)
    (st : state) :
  registrations_sound st →
  ∃ w' t,
    worker_cycle os w st = Done (w', t) st ∧
    calls t = (select os (queried t) ≫= λ fd,
               asyncSocketList st ≫= dispatched os st fd) ∧
    (∀ fd, fd ∈ queried t ↔ ∃ p, p ∈ batch_sockets st w ∧ handle_at st p = fd) ∧
    (distinct_handles st →
     (∀ c, c ∈ calls t → entry c ∈ batch_sockets st w) ∧
     (∀ fd, (dispatch_count st fd (calls t) ≤ 1)%nat)).
Proof.
  intros Hinv. exists (next_locals st w), (cycle_trace_of os st w).
  split; [by apply worker_cycle_done|]. split; [done|].
  split; [apply queried_elem|].
  intros Hdist. split.
  - intros c Hc. simpl in Hc.
    apply cycle_calls_elem in Hc as (s & Hp & Hs & Hfd & _).
    apply select_subseteq, queried_elem in Hfd as (q & Hq & Hh).
    rewrite (Hdist (entry c) q); [done|done| |].
    + by eapply batch_sockets_registered.
    + unfold handle_at at 1. rewrite Hs. done.
  - intros fd. simpl. apply cycle_calls_at_most_one; [|apply Hinv|done].
    apply select_NoDup, queried_NoDup.
Qed.

Lemma registered_distinct_invariant : engine_invariant registered_distinct.
Proof.
  apply (perform_all_invariant
           [Call_SetReadCallback 1 100 200; Call_SetReadCallback 3 101 201]%N
           (initial_state (heap example_accepted))).
  - apply initial_state_invariant. unfold no_callbacks.
    apply (bool_decide_unpack
             (map_Forall (λ _ s, ReadCallback s = NULL) (heap example_accepted))).
    vm_compute. reflexivity.
  - vm_compute. reflexivity.
Qed.

Lemma registered_distinct_handles : distinct_handles registered_distinct.
Proof.
  intros p q Hp Hq.
  change (asyncSocketList registered_distinct) with [1%N; 3%N] in Hp, Hq.
  apply elem_of_cons in Hp as [->|Hp]; [|apply list_elem_of_singleton in Hp as ->];
    (apply elem_of_cons in Hq as [->|Hq]; [|apply list_elem_of_singleton in Hq as ->]);
    vm_compute; congruence.
Qed.

Lemma dispatch_scans_registration_list_witness :
  registrations_sound registered_distinct ∧ distinct_handles registered_distinct ∧
  ∃ w' t, worker_cycle example_os (mkLocals NULL 0) registered_distinct
          = Done (w', t) registered_distinct ∧
          (dispatch_count registered_distinct 9 (calls t) ≤ 1)%nat.
Proof.
  split; [apply invariant_sound, registered_distinct_invariant|].
  split; [apply registered_distinct_handles|].
  destruct (dispatch_scans_registration_list example_os (mkLocals NULL 0)
              registered_distinct (invariant_sound _ registered_distinct_invariant))
    as (w' & t & Hrun & _ & _ & Hdist).
  exists w', t. split; [exact Hrun|].
  apply (Hdist registered_distinct_handles).
Defined.

(** *** Batches across cycles *)

Lemma elem_of_drop_registered (l : list N) c x : x ∈ drop c l → x ∈ l.
Proof.
  intros Hx. apply list_elem_of_lookup in Hx as [i Hi].
  rewrite lookup_drop in Hi. by eapply list_elem_of_lookup_2.
Qed.

Lemma cycle_fill_socket st w :
  registrations_sound st →
  socket (cycle_fill st w).1 = NULL
  ↔ (length (drop (selectIterator w) (asyncSocketList st)) < FD_SETSIZE)%nat.
Proof.
  intros Hinv. unfold cycle_fill.
  pose proof FD_SETSIZE_pos as Hpos.
  destruct FD_SETSIZE as [|n] eqn:E; [lia|].
  apply filled_socket. intros Hin.
  apply elem_of_drop_registered in Hin.
  by destruct (registered_socket_live st NULL Hinv Hin).
Qed.

Lemma next_locals_cursor st w :
  registrations_sound st →
  selectIterator (next_locals st w)
  = if bool_decide (length (drop (selectIterator w) (asyncSocketList st))
                    < FD_SETSIZE)%nat
    then 0%nat else (selectIterator w + FD_SETSIZE)%nat.
Proof.
  intros Hinv. unfold next_locals. cbv zeta.
  pose proof (cycle_fill_socket st w Hinv) as Hsock.
  destruct (is_null (socket (cycle_fill st w).1)) eqn:E.
  - apply is_null_true in E. rewrite bool_decide_eq_true_2 by by apply Hsock.
    reflexivity.
  - apply is_null_false in E.
    rewrite bool_decide_eq_false_2 by (intros Hlt; by apply E, Hsock).
    unfold cycle_fill. rewrite filled_cursor.
    rewrite length_take_le; [done|].
    destruct (decide (length (drop (selectIterator w) (asyncSocketList st))
                      < FD_SETSIZE)%nat) as [Hlt|Hge]; [|lia].
    by apply Hsock in Hlt.
Qed.

Lemma worker_loop_done oss w st :
  registrations_sound st → asyncWorkerRunning st = true →
  worker_loop oss w st = Done (loop_traces oss st w) st.
Proof.
  intros Hinv Hrun. revert w. induction oss as [|os oss IH]; intros w; simpl; [done|].
  rewrite (bind_done _ _ st st st) by done. rewrite Hrun.
  rewrite (bind_done _ _ _ _ _ (worker_cycle_done os w st Hinv)). simpl.
  by rewrite (bind_done _ _ _ _ _ (IH (next_locals st w))).
Qed.

Lemma loop_traces_cons os oss st w :
  loop_traces (os :: oss) st w
  = cycle_trace_of os st w :: loop_traces oss st (next_locals st w).
Proof. lazy beta iota delta [loop_traces]. exact eq_refl. Qed.

Lemma locals_after_S st k w :
  locals_after st (S k) w = locals_after st k (next_locals st w).
Proof. lazy beta iota delta [locals_after]. exact eq_refl. Qed.

Lemma loop_traces_length oss st w : length (loop_traces oss st w) = length oss.
Proof. revert w. induction oss as [|os oss IH]; intros w; simpl; [done|]. by rewrite IH. Qed.

Lemma loop_traces_capacity oss st w t :
  t ∈ loop_traces oss st w → (length (queried t) ≤ FD_SETSIZE)%nat.
Proof.
  revert w. induction oss as [|os oss IH]; intros w Ht; simpl in Ht.
  - by apply elem_of_nil in Ht.
  - apply elem_of_cons in Ht as [->|Ht]; [apply queried_capacity | by eapply IH].
Qed.

Lemma loop_traces_lookup oss st w k j :
  loop_traces oss st w !! (k + j)%nat
  = loop_traces (drop k oss) st (locals_after st k w) !! j.
Proof.
  revert oss w. induction k as [|k IH]; intros oss w; [done|].
  destruct oss as [|os oss]; [done|].
  rewrite loop_traces_cons, locals_after_S.
  rewrite Nat.add_succ_l, lookup_cons, skipn_cons. apply IH.
Qed.

(** A socket ahead of the cursor is queried after as many full batches as
    lie between the cursor and it. *)
Lemma loop_traces_visit oss st w i p :
  registrations_sound st →
  asyncSocketList st !! i = Some p →
  (selectIterator w ≤ i)%nat →
  ((i - selectIterator w) / FD_SETSIZE < length oss)%nat →
  ∃ t, loop_traces oss st w !! ((i - selectIterator w) / FD_SETSIZE)%nat = Some t ∧
       handle_at st p ∈ queried t.
Proof.
  intros Hinv Hi. pose proof FD_SETSIZE_pos as Hpos.
  revert w. induction oss as [|os oss IH]; intros w Hc Hlen; cbn [length] in Hlen;
    [lia|].
  destruct (decide (i - selectIterator w < FD_SETSIZE)%nat) as [Hnear|Hfar].
  - rewrite Nat.div_small by done. rewrite loop_traces_cons.
    exists (cycle_trace_of os st w). split; [by rewrite lookup_cons|].
    apply queried_elem. exists p. split; [|done].
    unfold batch_sockets. apply elem_of_take. exists (i - selectIterator w)%nat.
    split; [|done]. rewrite lookup_drop. rewrite <- Hi. f_equal. lia.
  - assert (Hdiv : ((i - selectIterator w) / FD_SETSIZE
                    = S ((i - (selectIterator w + FD_SETSIZE)) / FD_SETSIZE))%nat).
    { replace (i - selectIterator w)%nat
        with ((i - (selectIterator w + FD_SETSIZE)) + 1 * FD_SETSIZE)%nat by lia.
      rewrite Nat.div_add by lia. lia. }
    assert (Hnext : selectIterator (next_locals st w)
                    = (selectIterator w + FD_SETSIZE)%nat).
    { rewrite next_locals_cursor by done.
      apply lookup_lt_Some in Hi. rewrite bool_decide_eq_false_2; [done|].
      rewrite length_drop. lia. }
    rewrite Hdiv in Hlen |- *. rewrite loop_traces_cons, lookup_cons.
    rewrite <- Hnext. apply IH; rewrite Hnext; lia.
Qed.

(** The cursor is back at the first item once the batches between it and
    the end of the list have been queried. *)
Lemma cursor_reset st w m :
  registrations_sound st →
  ((length (asyncSocketList st) - selectIterator w) / FD_SETSIZE = m)%nat →
  selectIterator (locals_after st (S m) w) = 0%nat.
Proof.
  intros Hinv. pose proof FD_SETSIZE_pos as Hpos.
  revert w. induction m as [|m IH]; intros w Hm.
  - rewrite locals_after_S. lazy beta iota delta [locals_after].
    rewrite next_locals_cursor by done.
    rewrite bool_decide_eq_true_2; [done|]. rewrite length_drop.
    apply Nat.div_small_iff in Hm; lia.
  - rewrite locals_after_S.
    assert (Hfar : (FD_SETSIZE ≤ length (asyncSocketList st) - selectIterator w)%nat).
    { destruct (decide (length (asyncSocketList st) - selectIterator w
                        < FD_SETSIZE)%nat) as [Hlt|]; [|lia].
      rewrite Nat.div_small in Hm by done. discriminate. }
    assert (Hnext : selectIterator (next_locals st w)
                    = (selectIterator w + FD_SETSIZE)%nat).
    { rewrite next_locals_cursor by done.
      rewrite bool_decide_eq_false_2; [done|]. rewrite length_drop. lia. }
    apply IH. rewrite Hnext.
    replace (length (asyncSocketList st) - selectIterator w)%nat
      with ((length (asyncSocketList st) - (selectIterator w + FD_SETSIZE))
            + 1 * FD_SETSIZE)%nat in Hm by lia.
    rewrite Nat.div_add in Hm by lia. lia.
Qed.

Lemma CallbackWorker_Run_unfold socket0 oss st :
  SAL_Socket_CallbackWorker_Run socket0 oss st
  = worker_loop oss (mkLocals socket0 0) st.
Proof. reflexivity. Qed.

(** C6: while the worker flag is up and the list stays as it is, its
    entries distinct live sockets with callbacks, the cycles of the worker
    return, each with a read set of at most [FD_SETSIZE] (1024) handles: the
    handles of the sockets from the cursor on, up to 1024 of them or to the
    end of the list.  The next cycle goes on where
    this one stopped: a socket [d] places ahead of the cursor is queried in
    cycle [d / 1024], and from any cursor every registered socket has been
    queried within [2 * (n / 1024 + 1)] cycles, [n] being the length of the
    list. *)
Theorem batches_are_bounded_and_resume (oss : list environment)
    (w : worker_locals) (st : state) :
  registrations_sound st → asyncWorkerRunning st = true →
  ∃ ts,
    worker_loop oss w st = Done ts st ∧
    (selectIterator w = 0%nat →
     SAL_Socket_CallbackWorker_Run (socket w) oss st = Done ts st) ∧
    length ts = length oss ∧
    (∀ t, t ∈ ts → (length (queried t) ≤ FD_SETSIZE)%nat) ∧
    (∀ t, ts !! 0%nat = Some t →
          ∀ fd, fd ∈ queried t ↔
                ∃ p, p ∈ take FD_SETSIZE (drop (selectIterator w) (asyncSocketList st)) ∧
                     handle_at st p = fd) ∧
    (∀ i p, asyncSocketList st !! i = Some p →
            (selectIterator w ≤ i)%nat →
            ((i - selectIterator w) / FD_SETSIZE < length oss)%nat →
            ∃ t, ts !! ((i - selectIterator w) / FD_SETSIZE)%nat = Some t ∧
                 handle_at st p ∈ queried t) ∧
    (∀ p, p ∈ asyncSocketList st →
          (2 * (length (asyncSocketList st) / FD_SETSIZE + 1) ≤ length oss)%nat →
          ∃ k t, (k < 2 * (length (asyncSocketList st) / FD_SETSIZE + 1))%nat ∧
                 ts !! k = Some t ∧ handle_at st p ∈ queried t).
Proof.
  intros Hinv Hrun. pose proof FD_SETSIZE_pos as Hpos.
  exists (loop_traces oss st w).
  split; [by apply worker_loop_done|].
  split.
  { intros Hw. rewrite CallbackWorker_Run_unfold. destruct w as [sock it].
    simpl in *. subst it. by apply worker_loop_done. }
  split; [apply loop_traces_length|].
  split; [intros t; apply loop_traces_capacity|].
  split.
  { intros t Ht fd. destruct oss as [|os oss]; [done|].
    simpl in Ht. injection Ht as <-. apply queried_elem. }
  split; [intros i p; by apply loop_traces_visit|].
  intros p Hp Hlen.
  apply list_elem_of_lookup in Hp as [i Hi].
  pose proof (lookup_lt_Some _ _ _ Hi) as Hin.
  set (n := length (asyncSocketList st)) in *.
  assert (Hid : (i / FD_SETSIZE ≤ n / FD_SETSIZE)%nat)
    by (apply Nat.Div0.div_le_mono; lia).
  destruct (decide (selectIterator w ≤ i)%nat) as [Hahead|Hbehind].
  - assert (Hd : ((i - selectIterator w) / FD_SETSIZE ≤ n / FD_SETSIZE)%nat)
      by (apply Nat.Div0.div_le_mono; lia).
    destruct (loop_traces_visit oss st w i p Hinv Hi Hahead) as (t & Ht & Hq); [lia|].
    exists ((i - selectIterator w) / FD_SETSIZE)%nat, t.
    split; [lia|done].
  - set (k0 := ((n - selectIterator w) / FD_SETSIZE)%nat).
    assert (Hk0 : (k0 ≤ n / FD_SETSIZE)%nat)
      by (apply Nat.Div0.div_le_mono; lia).
    pose proof (cursor_reset st w k0 Hinv eq_refl) as Hreset.
    destruct (loop_traces_visit (drop (S k0) oss) st
                (locals_after st (S k0) w) i p Hinv Hi) as (t & Ht & Hq).
    + rewrite Hreset. lia.
    + rewrite Hreset, Nat.sub_0_r, length_drop. lia.
    + rewrite Hreset, Nat.sub_0_r in Ht.
      rewrite <- loop_traces_lookup in Ht.
      exists (S k0 + i / FD_SETSIZE)%nat, t. split; [lia|done].
Qed.

Lemma crowd_invariant : engine_invariant crowd.
Proof.
  apply (perform_all_invariant crowd_calls (initial_state crowd_heap)).
  - apply initial_state_invariant. unfold no_callbacks.
    apply (bool_decide_unpack
             (map_Forall (λ _ s, ReadCallback s = NULL) crowd_heap)).
    vm_compute. reflexivity.
  - vm_compute. reflexivity.
Qed.

Lemma batches_are_bounded_and_resume_witness :
  registrations_sound crowd ∧ asyncWorkerRunning crowd = true ∧
  ∃ ts, SAL_Socket_CallbackWorker_Run NULL [silent_os; silent_os] crowd
        = Done ts crowd ∧
        ∃ t, ts !! 1%nat = Some t ∧ 1500 ∈ queried t.
Proof.
  split; [apply invariant_sound, crowd_invariant|].
  split; [vm_compute; reflexivity|].
  destruct (batches_are_bounded_and_resume [silent_os; silent_os]
              (mkLocals NULL 0) crowd (invariant_sound _ crowd_invariant))
    as (ts & _ & Hrun & _ & _ & _ & Hvisit & _).
  - vm_compute. reflexivity.
  - exists ts. split; [apply Hrun; reflexivity|].
    destruct (Hvisit 1499%nat 1500%N) as (t & Ht & Hq).
    + vm_compute. reflexivity.
    + simpl. lia.
    + vm_compute. lia.
    + exists t. split.
      * vm_compute in Ht. exact Ht.
      * vm_compute in Hq. exact Hq.
Defined.

(** * Further properties of the module *)

(** *** How the registration calls compose *)

Lemma set_heap_same st : set_heap (heap st) st = st.
Proof. by destruct st. Qed.

Lemma remove_first_app_last p l : p ∉ l → remove_first p (l ++ [p]) = l.
Proof.
  induction l as [|x l IH]; simpl; intros Hp.
  - by rewrite decide_True.
  - apply not_elem_of_cons in Hp as [Hne Hp].
    rewrite decide_False by congruence. by rewrite IH.
Qed.

Lemma remove_first_filter p l :
  NoDup l → remove_first p l = filter (λ q, q ≠ p) l.
Proof.
  induction 1 as [|x l Hx Hnd IH]; simpl; [done|].
  destruct (decide (x = p)) as [->|Hne].
  - rewrite filter_cons_False by (intros Hq; by apply Hq).
    rewrite <- IH. symmetry. by apply remove_first_not_in.
  - rewrite filter_cons_True by done. by rewrite IH.
Qed.

Lemma started_running st : asyncWorkerRunning st = true → started st = st.
Proof. unfold started. by intros ->. Qed.

Lemma started_started st : started (started st) = started st.
Proof. unfold started. by destruct (asyncWorkerRunning st) eqn:E; simpl; rewrite ?E. Qed.

(** X1: of two registrations of the same socket in a row the second one
    wins: together they leave the state a single call with the second
    callback and state would have left.  The second call adds no entry to
    the list, and the socket is left with the second callback and state. *)
Theorem SetReadCallback_twice (socket cb1 cs1 cb2 cs2 : pointer) (st st1 st2 : state) :
  SAL_Socket_SetReadCallback socket cb1 cs1 st = Done tt st1 →
  SAL_Socket_SetReadCallback socket cb2 cs2 st1 = Done tt st2 →
  SAL_Socket_SetReadCallback socket cb2 cs2 st = Done tt st2 ∧
  asyncSocketList st2 = asyncSocketList st1 ∧
  ∃ s2, heap st2 !! socket = Some s2 ∧
        ReadCallback s2 = cb2 ∧ ReadCallbackState s2 = cs2.
Proof.
  intros H1 H2.
  destruct (SetReadCallback_done_inv _ _ _ _ _ H1) as (Hn & Hcb1 & Hcs1 & s & Hs & ->).
  destruct (SetReadCallback_done_inv _ _ _ _ _ H2) as (_ & Hcb2 & Hcs2 & s1 & Hs1 & ->).
  simpl in Hs1. rewrite lookup_insert_eq in Hs1. injection Hs1 as <-.
  apply is_null_false in Hcb1.
  split; [|split].
  - rewrite (SetReadCallback_done _ _ _ _ s) by done. f_equal.
    unfold registered, started. simpl. rewrite Hcb1.
    rewrite insert_insert_eq.
    by destruct (asyncWorkerRunning st), (is_null (ReadCallback s)).
  - unfold registered at 1. unfold started at 1. simpl. by rewrite Hcb1.
  - eexists. split; [apply lookup_insert_eq|]. done.
Qed.

Lemma SetReadCallback_twice_witness :
  SAL_Socket_SetReadCallback 1%N 101%N 201%N (initial_state two_sockets)
  = Done tt (state_of (SAL_Socket_SetReadCallback 1%N 101%N 201%N registered_one)) ∧
  asyncSocketList (state_of (SAL_Socket_SetReadCallback 1%N 101%N 201%N registered_one))
  = [1%N].
Proof.
  destruct (SetReadCallback_twice 1%N 100%N 200%N 101%N 201%N
              (initial_state two_sockets) registered_one
              (state_of (SAL_Socket_SetReadCallback 1%N 101%N 201%N registered_one)))
    as (Hrun & Hlist & _).
  - vm_compute. reflexivity.
  - vm_compute. reflexivity.
  - split; [exact Hrun|]. rewrite Hlist. vm_compute. reflexivity.
Defined.

(** X2: while the worker runs, registering a socket that is not registered
    and has both callback fields null, and unregistering it again, gives the
    state back as it was. *)
Theorem SetReadCallback_then_Unset (socket callback cstate : pointer)
    (st st1 : state) (s : SAL_Socket) :
  asyncWorkerRunning st = true →
  socket ∉ asyncSocketList st →
  heap st !! socket = Some s →
  ReadCallback s = NULL → ReadCallbackState s = NULL →
  SAL_Socket_SetReadCallback socket callback cstate st = Done tt st1 →
  SAL_Socket_UnsetSocketCallback socket st1 = Done tt st.
Proof.
  intros Hrun Hout Hs Hcb Hcs H.
  destruct (SetReadCallback_done_inv _ _ _ _ _ H) as (Hn & Hc & _ & s' & Hs' & ->).
  assert (s' = s) as -> by congruence.
  erewrite UnsetSocketCallback_done; [|done|simpl; apply lookup_insert_eq].
  f_equal. unfold unregistered, registered. simpl.
  apply non_null_true in Hc. rewrite Hc.
  rewrite started_running by done. apply is_null_true in Hcb as Hnull.
  rewrite Hnull. rewrite remove_first_app_last by done.
  rewrite insert_insert_eq.
  replace (mkSocket (RawSocket s) (Connected s) (LastError s) NULL NULL) with s
    by (destruct s; simpl in *; congruence).
  rewrite insert_id by done. destruct st; simpl in *. by rewrite Hrun.
Qed.

Lemma SetReadCallback_then_Unset_witness :
  SAL_Socket_UnsetSocketCallback 2%N registered_two = Done tt registered_one.
Proof.
  apply (SetReadCallback_then_Unset 2%N 101%N 201%N registered_one registered_two
           SAL_Socket_Init_value).
  - reflexivity.
  - vm_compute. intros Hin. apply list_elem_of_singleton in Hin. discriminate.
  - vm_compute. reflexivity.
  - reflexivity.
  - reflexivity.
  - vm_compute. reflexivity.
Defined.

(** X3: in a state whose list entries are distinct live sockets with
    callbacks, unregistering takes exactly the entries equal to the socket
    out of the list and keeps the others in their order; unregistering the
    same socket once more changes nothing. *)
Theorem Unset_keeps_order_and_is_idempotent (socket : pointer) (st st1 : state) :
  registrations_sound st →
  SAL_Socket_UnsetSocketCallback socket st = Done tt st1 →
  asyncSocketList st1 = filter (λ q, q ≠ socket) (asyncSocketList st) ∧
  SAL_Socket_UnsetSocketCallback socket st1 = Done tt st1.
Proof.
  intros [Hnd Hlive] H.
  destruct (UnsetSocketCallback_done_inv _ _ _ H) as (Hn & s & Hs & ->).
  unfold unregistered. destruct (non_null (ReadCallback s)) eqn:E; simpl.
  - split; [by apply remove_first_filter|].
    erewrite UnsetSocketCallback_done; [|done|simpl; apply lookup_insert_eq].
    reflexivity.
  - split.
    + rewrite <- remove_first_filter by done. symmetry.
      apply remove_first_not_in. intros Hin.
      destruct (Hlive _ Hin) as (_ & s' & Hs' & Hcb).
      apply non_null_false in E. congruence.
    + rewrite (UnsetSocketCallback_done _ _ s) by done.
      unfold unregistered. by rewrite E.
Qed.

Lemma Unset_keeps_order_and_is_idempotent_witness :
  asyncSocketList (state_of (SAL_Socket_UnsetSocketCallback 1%N registered_two))
  = filter (λ q, q ≠ 1%N) (asyncSocketList registered_two) ∧
  SAL_Socket_UnsetSocketCallback 1%N
    (state_of (SAL_Socket_UnsetSocketCallback 1%N registered_two))
  = Done tt (state_of (SAL_Socket_UnsetSocketCallback 1%N registered_two)).
Proof.
  apply (Unset_keeps_order_and_is_idempotent 1%N registered_two).
  - apply invariant_sound.
    apply (perform_all_invariant
             [Call_SetReadCallback 1 100 200; Call_SetReadCallback 2 101 201]%N
             (initial_state two_sockets)).
    + apply initial_state_invariant, two_sockets_no_callbacks.
    + vm_compute. reflexivity.
  - vm_compute. reflexivity.
Defined.

(** X4: closing a socket that has just been closed returns and changes
    nothing. *)
Theorem Close_twice (socket : pointer) (st st1 : state) :
  SAL_Socket_Close socket st = Done tt st1 →
  SAL_Socket_Close socket st1 = Done tt st1.
Proof.
  intros H. destruct (Close_done_inv _ _ _ H) as (Hn & s & Hs & ->).
  set (st1 := closed socket s st).
  pose proof (closed_socket socket s st) as Hs1. fold st1 in Hs1.
  rewrite (Close_done socket st1 _ Hn Hs1). f_equal.
  set (s1 := mkSocket INVALID_SOCKET false (LastError s) NULL
                      (if non_null (ReadCallback s) then NULL
                       else ReadCallbackState s)) in *.
  change (closed socket s1 st1) with (set_heap (<[socket := s1]> (heap st1)) st1).
  rewrite insert_id by done. apply set_heap_same.
Qed.

Lemma Close_twice_witness :
  SAL_Socket_Close 1%N (state_of (SAL_Socket_Close 1%N registered_two))
  = Done tt (state_of (SAL_Socket_Close 1%N registered_two)).
Proof.
  apply (Close_twice 1%N registered_two). vm_compute. reflexivity.
Defined.

(** *** Creating sockets *)

Lemma statics_kept_refl st : statics_kept st st.
Proof. by repeat split. Qed.

Lemma statics_kept_trans st st1 st' :
  statics_kept st st1 → statics_kept st1 st' → statics_kept st st'.
Proof.
  intros (H1 & H2 & H3 & H4 & H5) (H1' & H2' & H3' & H4' & H5').
  repeat split; congruence.
Qed.

Lemma allocates_statics st st' : allocates st st' → statics_kept st st'.
Proof.
  induction 1 as [st | st st' _ IH | p v st st' _ IH | raw st st' _ IH].
  - apply statics_kept_refl.
  - eapply statics_kept_trans; [|exact IH]. by repeat split.
  - eapply statics_kept_trans; [|exact IH]. by repeat split.
  - eapply statics_kept_trans; [|exact IH]. by repeat split.
Qed.

Lemma new_socket_fresh raw st :
  hands_out_fresh raw (next_address st) st (with_new_socket raw st).
Proof. destruct (next_address_fresh st) as [Hn Hf]. by repeat split. Qed.

Lemma ConnectIP_done os ip port st :
  SAL_Socket_ConnectIP os ip port st
  = if bool_decide (socket_result os = INVALID_SOCKET ∨
                    connect_result os ip port = SOCKET_ERROR)
    then Done NULL (set_winsockInitialized true st)
    else Done (next_address st)
              (with_new_socket (socket_result os) (set_winsockInitialized true st)).
Proof.
  unfold SAL_Socket_ConnectIP.
  rewrite (bind_done _ _ _ _ _ (ensure_winsock_done st)).
  case_bool_decide as H1; [by rewrite bool_decide_eq_true_2 by auto|].
  case_bool_decide as H2; [by rewrite bool_decide_eq_true_2 by auto|].
  rewrite bool_decide_eq_false_2 by (intros [|]; done).
  unfold Allocate, SAL_Socket_Init, with_new_socket, next_address. unfold_M.
  destruct st as [h l w r ws lt nt cw]; simpl.
  set (q := fresh _). unfold set_heap; simpl. heap_simpl. reflexivity.
Qed.

Lemma Listen_done os st :
  SAL_Socket_Listen os st
  = if bool_decide (socket_result os = INVALID_SOCKET ∨
                    getaddrinfo_result os ≠ 0 ∨
                    bind_result os ≠ 0 ∨ listen_result os ≠ 0)
    then Done NULL (set_winsockInitialized true st)
    else Done (next_address st)
              (with_new_socket (socket_result os) (set_winsockInitialized true st)).
Proof.
  unfold SAL_Socket_Listen.
  rewrite (bind_done _ _ _ _ _ (ensure_winsock_done st)).
  case_bool_decide as H1; [by rewrite bool_decide_eq_true_2 by auto|].
  case_bool_decide as H2; [by rewrite bool_decide_eq_true_2 by auto|].
  case_bool_decide as H3; [by rewrite bool_decide_eq_true_2 by auto|].
  case_bool_decide as H4; [by rewrite bool_decide_eq_true_2 by auto|].
  rewrite bool_decide_eq_false_2 by (intros [|[|[|]]]; done).
  unfold Allocate, with_new_socket, next_address. unfold_M.
  destruct st as [h l w r ws lt nt cw]; simpl.
  set (q := fresh _). unfold set_heap; simpl. heap_simpl. reflexivity.
Qed.

(** X5: [SAL_Socket_ConnectIP] and [SAL_Socket_Listen] always return.  When
    the operating system refuses ([socket], [connect], [getaddrinfo], [bind]
    or [listen] fails) the result is null and no socket is allocated;
    otherwise the result is a new socket at an address that held none,
    connected, with the handle the system gave, no error and no callback.
    [SAL_Socket_Accept] on a live listener returns null and changes nothing
    when [accept] fails; when [accept] succeeds it stops on the write
    through a null [acceptedAddress], and otherwise writes the address of
    the peer there and returns such a new socket.  On a null listener, or
    one that is no live socket, it stops on the access to the listener.
    Where the calls return, the registration list and the worker stay as
    they are. *)
Theorem creation_results :
  (∀ os ip port st,
     ∃ p st', SAL_Socket_ConnectIP os ip port st = Done p st' ∧
              statics_kept st st' ∧ winsockInitialized st' = true ∧
              if bool_decide (socket_result os = INVALID_SOCKET ∨
                              connect_result os ip port = SOCKET_ERROR)
              then p = NULL ∧ heap st' = heap st
              else hands_out_fresh (socket_result os) p st st') ∧
  (∀ os st,
     ∃ p st', SAL_Socket_Listen os st = Done p st' ∧
              statics_kept st st' ∧ winsockInitialized st' = true ∧
              if bool_decide (socket_result os = INVALID_SOCKET ∨
                              getaddrinfo_result os ≠ 0 ∨
                              bind_result os ≠ 0 ∨ listen_result os ≠ 0)
              then p = NULL ∧ heap st' = heap st
              else hands_out_fresh (socket_result os) p st st') ∧
  (∀ os listener acceptedAddress st l,
     listener ≠ NULL → heap st !! listener = Some l →
     if bool_decide (accept_result os (RawSocket l) = INVALID_SOCKET)
     then SAL_Socket_Accept os listener acceptedAddress st = Done NULL st
     else if bool_decide (acceptedAddress = NULL)
     then SAL_Socket_Accept os listener acceptedAddress st
          = Failed AccessViolation st
     else ∃ p st',
       SAL_Socket_Accept os listener acceptedAddress st = Done p st' ∧
       statics_kept st st' ∧
       winsockInitialized st' = winsockInitialized st ∧
       hands_out_fresh (accept_result os (RawSocket l)) p st st' ∧
       callerWords st'
       = <[acceptedAddress := accept_address os (RawSocket l)]> (callerWords st)) ∧
  (∀ os listener acceptedAddress st,
     listener = NULL ∨ heap st !! listener = None →
     SAL_Socket_Accept os listener acceptedAddress st = Failed AccessViolation st).
Proof.
  split; [|split; [|split]].
  - intros os ip port st. rewrite ConnectIP_done.
    case_bool_decide; eexists _, _; (split; [reflexivity|]).
    + by repeat split.
    + split; [by repeat split|]. split; [done|].
      apply (new_socket_fresh _ (set_winsockInitialized true st)).
  - intros os st. rewrite Listen_done.
    case_bool_decide; eexists _, _; (split; [reflexivity|]).
    + by repeat split.
    + split; [by repeat split|]. split; [done|].
      apply (new_socket_fresh _ (set_winsockInitialized true st)).
  - intros os listener acceptedAddress st l Hn Hl.
    rewrite (Accept_done _ _ _ _ l Hn Hl).
    destruct (decide (accept_result os (RawSocket l) = INVALID_SOCKET)) as [Hr|Hr].
    + rewrite (bool_decide_eq_true_2 _ Hr).
      by rewrite bool_decide_eq_false_2 by auto.
    + rewrite (bool_decide_eq_false_2 _ Hr), (bool_decide_eq_true_2 _ Hr).
      unfold is_null. case_bool_decide; [done|].
      eexists _, _. split; [reflexivity|]. split; [by repeat split|].
      split; [done|]. split; [|done].
      apply (new_socket_fresh _
               (with_word acceptedAddress (accept_address os (RawSocket l)) st)).
  - intros os listener acceptedAddress st [->|Hl].
    + reflexivity.
    + unfold SAL_Socket_Accept. destruct (is_null listener); [done|].
      apply bind_failed. unfold load. by rewrite Hl.
Qed.

Lemma creation_results_witness :
  ∃ p st', SAL_Socket_Accept example_os 1%N 64%N (initial_state two_sockets)
           = Done p st' ∧
           hands_out_fresh 9 p (initial_state two_sockets) st' ∧
           callerWords st' !! 64%N = Some 16777343.
Proof.
  destruct creation_results as (_ & _ & HAccept & _).
  pose proof (HAccept example_os 1%N 64%N (initial_state two_sockets)
                SAL_Socket_Init_value) as Hres.
  rewrite bool_decide_eq_false_2 in Hres by discriminate.
  rewrite bool_decide_eq_false_2 in Hres by discriminate.
  destruct Hres as (p & st' & Hrun & _ & _ & Hnew & Hword).
  - discriminate.
  - vm_compute. reflexivity.
  - exists p, st'. split; [exact Hrun|]. split; [exact Hnew|].
    rewrite Hword. apply lookup_insert_eq.
Defined.

Lemma set_winsock_again st :
  winsockInitialized st = true → set_winsockInitialized true st = st.
Proof. destruct st; simpl. by intros ->. Qed.

Lemma attempt_succeeds_false port a :
  attempt_succeeds port a = false ↔
  socket_result a.2 = INVALID_SOCKET ∨
  connect_result a.2 (to_uint32 a.1) port = SOCKET_ERROR.
Proof.
  unfold attempt_succeeds. rewrite andb_false_iff, !negb_false_iff.
  by rewrite !bool_decide_eq_true.
Qed.

Lemma connect_first_done slots i len answers port st :
  winsockInitialized st = true → Z.of_nat i ≤ 255 →
  connect_first slots i len answers port st
  = match find (attempt_succeeds port)
               (take (Z.to_nat (Z.min len 256) - i)
                     (imap (λ k a, (a, answers (i + k)%nat)) slots)) with
    | Some a => Done (next_address st) (with_new_socket (socket_result a.2) st)
    | None =>
      if bool_decide (length slots < Z.to_nat (Z.min len 256) - i)%nat
      then Failed AccessViolation st
      else if bool_decide (len ≤ 255) then Done NULL st
      else Failed Blocked st
    end.
Proof.
  intros Hw. revert i. induction slots as [|a rest IH]; intros i Hi; simpl.
  - rewrite take_nil. simpl.
    destruct (decide (Z.of_nat i < len)) as [Hlt|Hlt].
    + rewrite (bool_decide_eq_true_2 _ Hlt).
      by rewrite bool_decide_eq_true_2 by lia.
    + rewrite (bool_decide_eq_false_2 _ Hlt).
      rewrite bool_decide_eq_false_2 by lia.
      by rewrite bool_decide_eq_true_2 by lia.
  - destruct (decide (Z.of_nat i < len)) as [Hlt|Hlt].
    + rewrite (bool_decide_eq_true_2 _ Hlt).
      destruct (Z.to_nat (Z.min len 256) - i)%nat as [|m] eqn:Hm; [lia|].
      simpl. rewrite Nat.add_0_r.
      pose proof (ConnectIP_done (answers i) (to_uint32 a) port st) as Hc.
      rewrite set_winsock_again in Hc by done.
      destruct (attempt_succeeds port (a, answers i)) eqn:E.
      * rewrite bool_decide_eq_false_2 in Hc.
        -- rewrite (bind_done _ _ _ _ _ Hc).
           destruct (next_address_fresh st) as [Hn _].
           apply non_null_true in Hn. rewrite Hn. done.
        -- intros Hfail.
           apply (attempt_succeeds_false port (a, answers i)) in Hfail. congruence.
      * rewrite bool_decide_eq_true_2 in Hc
          by by apply (attempt_succeeds_false port (a, answers i)).
        rewrite (bind_done _ _ _ _ _ Hc).
        assert (non_null NULL = false) as -> by done.
        destruct (decide (Z.of_nat i = 255)) as [Hwrap|Hwrap].
        -- rewrite (bool_decide_eq_true_2 _ Hwrap).
           assert (m = 0%nat) as -> by lia. rewrite take_0. simpl.
           by rewrite bool_decide_eq_false_2 by lia.
        -- rewrite (bool_decide_eq_false_2 _ Hwrap).
           rewrite (IH (S i)) by lia.
           replace (Z.to_nat (Z.min len 256) - S i)%nat with m by lia.
           rewrite (imap_ext (λ k a0, (a0, answers (S i + k)%nat))
                             ((λ k a0, (a0, answers (i + k)%nat)) ∘ S))
             by (intros k x _; simpl; f_equal; f_equal; lia).
           destruct (find _ _); [done|].
           by rewrite (bool_decide_ext (length rest < m)%nat
                                       (S (length rest) < S m)%nat) by (split; lia).
    + rewrite (bool_decide_eq_false_2 _ Hlt).
      replace (Z.to_nat (Z.min len 256) - i)%nat with 0%nat by lia.
      rewrite take_0. simpl.
      by rewrite bool_decide_eq_true_2 by lia.
Qed.

(** X6: [SAL_Socket_Connect] with an address [inet_addr] accepts connects to
    it as [SAL_Socket_ConnectIP] does.  With a host name it goes through
    the first [h_length] slots of [h_addr_list] in order, 256 at most, hands
    the pointer in each slot (cast to [uint32]) to [SAL_Socket_ConnectIP],
    and returns the socket of the first attempt that gets a socket and a
    connection; the attempts before it leave nothing behind.  When no
    attempt succeeds, the call reads past the end of the array if the array
    has fewer than [h_length] slots, returns null if [h_length] is at most
    255, and does not return otherwise.  Without a host entry the null entry
    is dereferenced. *)
Theorem Connect_by_name (os : environment) (host : option HOSTENT)
    (answers : nat → environment) (port : Z) (st : state) :
  SAL_Socket_Connect os host answers port st
  = if bool_decide (inet_addr_result os = INADDR_NONE) then
      match host with
      | None => Failed AccessViolation (set_winsockInitialized true st)
      | Some hostEntry =>
        match find (attempt_succeeds port) (tried_slots hostEntry answers) with
        | Some a =>
          Done (next_address st)
               (with_new_socket (socket_result a.2) (set_winsockInitialized true st))
        | None =>
          if bool_decide (length (h_addr_list hostEntry)
                          < Z.to_nat (Z.min (h_length hostEntry) 256))%nat
          then Failed AccessViolation (set_winsockInitialized true st)
          else if bool_decide (h_length hostEntry ≤ 255)
          then Done NULL (set_winsockInitialized true st)
          else Failed Blocked (set_winsockInitialized true st)
        end
      end
    else SAL_Socket_ConnectIP os (inet_addr_result os) port st.
Proof.
  unfold SAL_Socket_Connect.
  rewrite (bind_done _ _ _ _ _ (ensure_winsock_done st)).
  case_bool_decide.
  - destruct host as [hostEntry|]; [|done].
    rewrite connect_first_done by (done || lia).
    unfold tried_slots. by rewrite Nat.sub_0_r.
  - rewrite !ConnectIP_done. by rewrite set_winsock_again.
Qed.

(** *** Invariants over all calls *)

Lemma invariant_new_socket raw st :
  engine_invariant st → engine_invariant (with_new_socket raw st).
Proof.
  intros [(Hnd & Hlive & Hiff) Hidle Hnn].
  destruct (next_address_fresh st) as [_ Hf].
  split; [|done|done]. split; [done|]. split; simpl.
  - intros p Hp. destruct (Hlive p Hp) as [s Hs].
    exists s. rewrite lookup_insert_ne; [done|]. intros E. rewrite E in Hf. congruence.
  - intros p s Hs. destruct (decide (next_address st = p)) as [<-|Hne].
    + rewrite lookup_insert_eq in Hs. injection Hs as <-. simpl.
      split; [done|]. intros Hin. destruct (Hlive _ Hin) as [s Hs]. congruence.
    + rewrite lookup_insert_ne in Hs by done. by apply Hiff.
Qed.

Lemma allocates_invariant st st' :
  allocates st st' → engine_invariant st → engine_invariant st'.
Proof.
  induction 1 as [st | st st' _ IH | p v st st' _ IH | raw st st' _ IH];
    intros Hinv; [done| | |].
  - apply IH. by destruct Hinv.
  - apply IH. by destruct Hinv.
  - by apply IH, invariant_new_socket.
Qed.

Lemma closed_invariant socket s st :
  heap st !! socket = Some s →
  engine_invariant st → engine_invariant (closed socket s st).
Proof.
  intros Hs Hinv.
  destruct (sound_unregistered socket s st Hs (invariant_sound _ Hinv)) as [_ Hout].
  destruct (unregistered_invariant socket s st Hs Hinv)
    as [(Hnd & Hlive & Hiff) Hidle Hnn].
  split; [|done|done]. split; [done|]. split.
  - intros p Hp. simpl. destruct (decide (socket = p)) as [->|Hne].
    + rewrite lookup_insert_eq. eauto.
    + rewrite lookup_insert_ne by done. by apply Hlive.
  - intros p s' Hs'. simpl in Hs'. destruct (decide (socket = p)) as [<-|Hne].
    + rewrite lookup_insert_eq in Hs'. injection Hs' as <-. simpl. split; [done|].
      intros Hin. by apply Hout in Hin.
    + rewrite lookup_insert_ne in Hs' by done. by apply Hiff.
Qed.

Lemma run_call_invariant c st st' :
  is_shutdown c = false → run_call c st = Done tt st' →
  engine_invariant st → engine_invariant st'.
Proof.
  intros Hc H Hinv. destruct c; simpl in *; try discriminate.
  - apply discard_done_inv in H as [q H].
    by apply (allocates_invariant _ _ (Connect_allocates _ _ _ _ _ _ _ H)).
  - apply discard_done_inv in H as [q H].
    by apply (allocates_invariant _ _ (ConnectIP_allocates _ _ _ _ _ _ H)).
  - apply discard_done_inv in H as [q H].
    by apply (allocates_invariant _ _ (Listen_allocates _ _ _ _ H)).
  - apply discard_done_inv in H as [q H].
    by apply (allocates_invariant _ _ (Accept_allocates _ _ _ _ _ _ H)).
  - destruct (Close_done_inv _ _ _ H) as (_ & s & Hs & ->).
    by apply closed_invariant.
  - apply (read_only_discard _ (read_only_Read _ _ _ _)) in H as ->. done.
  - apply (read_only_discard _ (read_only_Write _ _ _ _)) in H as ->. done.
  - destruct (SetReadCallback_done_inv _ _ _ _ _ H) as (Hn & Hcb & _ & s & Hs & ->).
    by apply registered_invariant.
  - destruct (UnsetSocketCallback_done_inv _ _ _ H) as (_ & s & Hs & ->).
    by apply unregistered_invariant.
  - apply (read_only_discard _ (read_only_worker_cycle _ _)) in H as ->. done.
Qed.

(** X7: from the start with no callback set, after every sequence of calls
    of the module and cycles of the worker that returns and has no
    [SAL_Socket_ClearCallbacks] in it, the list has no duplicates and holds
    exactly the sockets whose [ReadCallback] is not null: creating, reading,
    writing and closing sockets keep the agreement of list and callbacks. *)
Theorem agreement_kept_without_shutdown (h : gmap N SAL_Socket)
    (cs : list socket_call) (st : state) :
  no_callbacks h →
  forallb (λ c, negb (is_shutdown c)) cs = true →
  run_calls cs (initial_state h) = Done tt st →
  registration_consistent st.
Proof.
  intros Hh Hcs Hrun. apply inv_consistent.
  apply initial_state_invariant in Hh. revert Hh Hcs Hrun.
  generalize (initial_state h) as st0.
  induction cs as [|c cs IH]; simpl; intros st0 Hinv Hcs H.
  - unfold_M. by injection H as <-.
  - apply andb_true_iff in Hcs as [Hc Hcs]. apply negb_true_iff in Hc.
    apply bind_done_inv in H as ([] & st1 & H1 & H2).
    eapply IH; [|done|done]. by eapply run_call_invariant.
Qed.

Lemma agreement_kept_without_shutdown_witness :
  registration_consistent
    (state_of (run_calls [Do_Accept example_os 1 64; Do_SetReadCallback 3 100 200;
                          Do_SetReadCallback 1 101 201;
                          Do_Read example_os 3 asyncSocketBuffer 1024;
                          Do_Close 3; Do_Listen example_os]%N
                         (initial_state two_sockets))).
Proof.
  apply (agreement_kept_without_shutdown two_sockets
           [Do_Accept example_os 1 64; Do_SetReadCallback 3 100 200;
            Do_SetReadCallback 1 101 201;
            Do_Read example_os 3 asyncSocketBuffer 1024;
            Do_Close 3; Do_Listen example_os]%N).
  - apply two_sockets_no_callbacks.
  - reflexivity.
  - vm_compute. reflexivity.
Defined.

Lemma one_worker_statics st st' :
  statics_kept st st' → one_worker st → one_worker st'.
Proof. intros (_ & Hw & Hr & Hl & _). unfold one_worker. by rewrite Hw, Hr, Hl. Qed.

Lemma one_worker_registered socket callback cstate s st :
  one_worker st → one_worker (registered socket callback cstate s st).
Proof.
  unfold one_worker, registered, started. simpl.
  destruct (asyncWorkerRunning st); simpl; [done|]. by intros ->.
Qed.

Lemma one_worker_unregistered socket s st :
  one_worker st → one_worker (unregistered socket s st).
Proof. unfold unregistered. by destruct (non_null (ReadCallback s)). Qed.

Lemma one_worker_shut_down st : one_worker st → one_worker (shut_down st).
Proof.
  unfold one_worker, shut_down. simpl. intros ->.
  destruct (asyncWorkerRunning st); [|done].
  by rewrite filter_cons_False by (intros Hne; by apply Hne).
Qed.

Lemma run_call_one_worker c st st' :
  run_call c st = Done tt st' → one_worker st → one_worker st'.
Proof.
  intros H Hw. destruct c; simpl in *.
  - apply discard_done_inv in H as [q H].
    by apply (one_worker_statics _ _ (allocates_statics _ _ (Connect_allocates _ _ _ _ _ _ _ H))).
  - apply discard_done_inv in H as [q H].
    by apply (one_worker_statics _ _ (allocates_statics _ _ (ConnectIP_allocates _ _ _ _ _ _ H))).
  - apply discard_done_inv in H as [q H].
    by apply (one_worker_statics _ _ (allocates_statics _ _ (Listen_allocates _ _ _ _ H))).
  - apply discard_done_inv in H as [q H].
    by apply (one_worker_statics _ _ (allocates_statics _ _ (Accept_allocates _ _ _ _ _ _ H))).
  - destruct (Close_done_inv _ _ _ H) as (_ & s & Hs & ->).
    by apply (one_worker_unregistered _ s st).
  - apply (read_only_discard _ (read_only_Read _ _ _ _)) in H as ->. done.
  - apply (read_only_discard _ (read_only_Write _ _ _ _)) in H as ->. done.
  - destruct (SetReadCallback_done_inv _ _ _ _ _ H) as (_ & _ & _ & s & Hs & ->).
    by apply one_worker_registered.
  - destruct (UnsetSocketCallback_done_inv _ _ _ H) as (_ & s & Hs & ->).
    by apply one_worker_unregistered.
  - rewrite ClearCallbacks_done in H. injection H as <-.
    by apply one_worker_shut_down.
  - apply (read_only_discard _ (read_only_worker_cycle _ _)) in H as ->. done.
Qed.

(** X8: after every sequence of calls of the module and cycles of the
    worker from the start, the thread table holds exactly the worker
    [asyncWorker] while [asyncWorkerRunning] is up and no thread while it is
    down: registrations never start a second worker, and a shutdown leaves
    no worker behind. *)
Theorem one_worker_at_a_time (h : gmap N SAL_Socket) (cs : list socket_call)
    (st : state) :
  run_calls cs (initial_state h) = Done tt st →
  one_worker st ∧ (length (liveThreads st) ≤ 1)%nat.
Proof.
  intros Hrun.
  assert (Hw : one_worker st).
  { assert (H0 : one_worker (initial_state h)) by done.
    revert H0 Hrun. generalize (initial_state h) as st0.
    induction cs as [|c cs IH]; simpl; intros st0 H0 H.
    - unfold_M. by injection H as <-.
    - apply bind_done_inv in H as ([] & st1 & H1 & H2).
      eapply IH; [|done]. by eapply run_call_one_worker. }
  split; [done|]. rewrite Hw. destruct (asyncWorkerRunning st); simpl; lia.
Qed.

Lemma one_worker_at_a_time_witness :
  one_worker (state_of (run_calls (restart_calls ++
                                   [Do_ClearCallbacks; Do_Accept example_os 1 64;
                                    Do_SetReadCallback 2 100 200; Do_Close 1]%N)
                                  (initial_state two_sockets))).
Proof.
  apply (one_worker_at_a_time two_sockets
           (restart_calls ++ [Do_ClearCallbacks; Do_Accept example_os 1 64;
                              Do_SetReadCallback 2 100 200; Do_Close 1]%N)).
  vm_compute. reflexivity.
Defined.

(** X9: after a shutdown, unregistering a live socket and registering it
    again always registers it: the engine runs with a worker thread, the
    list holds exactly that socket and the socket has the new callback and
    state, whether or not the socket was registered at the shutdown. *)
Theorem Unset_then_Set_after_shutdown (socket callback cstate : pointer)
    (st : state) (s : SAL_Socket) :
  socket ≠ NULL → callback ≠ NULL → cstate ≠ NULL →
  heap st !! socket = Some s →
  ∃ st', (SAL_Socket_ClearCallbacks;;
          SAL_Socket_UnsetSocketCallback socket;;
          SAL_Socket_SetReadCallback socket callback cstate) st = Done tt st' ∧
         asyncSocketList st' = [socket] ∧
         asyncWorkerRunning st' = true ∧
         asyncWorker st' ∈ liveThreads st' ∧
         ∃ s', heap st' !! socket = Some s' ∧
               ReadCallback s' = callback ∧ ReadCallbackState s' = cstate.
Proof.
  intros Hn Hcb Hcs Hs.
  rewrite (bind_done _ _ _ _ _ (ClearCallbacks_done st)).
  rewrite (bind_done _ _ _ _ _ (UnsetSocketCallback_done socket (shut_down st) s Hn Hs)).
  set (st1 := unregistered socket s (shut_down st)).
  assert (Hst1 : ∃ s1, heap st1 !! socket = Some s1 ∧ ReadCallback s1 = NULL ∧
                       asyncWorkerRunning st1 = false).
  { unfold st1, unregistered. destruct (non_null (ReadCallback s)) eqn:E; simpl.
    - rewrite lookup_insert_eq. eauto.
    - apply non_null_false in E. eauto. }
  destruct Hst1 as (s1 & Hs1 & Hnull & Hdown).
  rewrite (SetReadCallback_done _ _ _ _ s1) by done.
  eexists. split; [reflexivity|].
  unfold registered, started. rewrite Hdown. simpl.
  apply is_null_true in Hnull. rewrite Hnull.
  split; [done|]. split; [done|]. split; [left|].
  rewrite lookup_insert_eq. eauto.
Qed.

Lemma Unset_then_Set_after_shutdown_witness :
  ∃ st', (SAL_Socket_ClearCallbacks;;
          SAL_Socket_UnsetSocketCallback 1%N;;
          SAL_Socket_SetReadCallback 1%N 100%N 200%N) registered_one = Done tt st' ∧
         asyncSocketList st' = [1%N].
Proof.
  destruct (Unset_then_Set_after_shutdown 1%N 100%N 200%N registered_one
              (mkSocket 0 false 0 100%N 200%N))
    as (st' & Hrun & Hlist & _); try discriminate.
  - vm_compute. reflexivity.
  - exists st'. split; [exact Hrun | exact Hlist].
Defined.

(** *** The worker *)

Lemma read_only_worker_loop oss w : read_only (worker_loop oss w).
Proof.
  revert w. induction oss as [|os oss IH]; intros w; simpl.
  - apply read_only_ret.
  - apply read_only_bind; [apply read_only_get|]. intros st.
    destruct (asyncWorkerRunning st); [|apply read_only_ret].
    apply read_only_bind; [apply read_only_worker_cycle|]. intros r.
    apply read_only_bind; [apply IH|]. intros ts. apply read_only_ret.
Qed.

(** X10: a run of the worker that returns, over any number of cycles and
    whatever [select] and [recv] answer, leaves the registration list, the
    sockets and the worker flag exactly as they were (what the callbacks do
    themselves apart): the worker never unregisters a socket, not even one
    whose read yields nothing. *)
Theorem worker_changes_nothing (socket0 : pointer) (oss : list environment)
    (st st' : state) (ts : list cycle_trace) :
  SAL_Socket_CallbackWorker_Run socket0 oss st = Done ts st' → st' = st.
Proof.
  rewrite CallbackWorker_Run_unfold. apply read_only_worker_loop.
Qed.

Lemma worker_changes_nothing_witness :
  state_of (SAL_Socket_CallbackWorker_Run NULL [silent_os; example_os] registered_two)
  = registered_two.
Proof.
  apply (worker_changes_nothing NULL [silent_os; example_os] registered_two _
           (match SAL_Socket_CallbackWorker_Run NULL [silent_os; example_os]
                    registered_two with
            | Done ts _ => ts
            | Failed _ _ => []
            end)).
  vm_compute. reflexivity.
Defined.

Lemma few_sockets_cycle st w :
  registrations_sound st →
  (length (asyncSocketList st) < FD_SETSIZE)%nat →
  selectIterator w = 0%nat →
  selectIterator (next_locals st w) = 0%nat ∧
  batch_sockets st w = asyncSocketList st.
Proof.
  intros Hs Hlen Hw. split.
  - rewrite next_locals_cursor by done. rewrite Hw, drop_0.
    by rewrite bool_decide_eq_true_2.
  - unfold batch_sockets. rewrite Hw, drop_0. apply take_ge. lia.
Qed.

(** X11: with fewer than [FD_SETSIZE] (1024) registered sockets, every cycle
    of a worker that starts at [AsyncLinkedList_BeginIterate] puts the
    handles of all registered sockets, and nothing else, into its read
    set. *)
Theorem few_sockets_all_queried_every_cycle (socket0 : pointer)
    (oss : list environment) (st : state) :
  registrations_sound st → asyncWorkerRunning st = true →
  (length (asyncSocketList st) < FD_SETSIZE)%nat →
  ∃ ts, SAL_Socket_CallbackWorker_Run socket0 oss st = Done ts st ∧
        length ts = length oss ∧
        ∀ t, t ∈ ts →
             ∀ fd, fd ∈ queried t ↔
                   ∃ p, p ∈ asyncSocketList st ∧ handle_at st p = fd.
Proof.
  intros Hs Hrun Hlen. rewrite CallbackWorker_Run_unfold.
  exists (loop_traces oss st (mkLocals socket0 0)).
  split; [by apply worker_loop_done|]. split; [apply loop_traces_length|].
  assert (H0 : selectIterator (mkLocals socket0 0) = 0%nat) by done.
  revert H0. generalize (mkLocals socket0 0) as w.
  induction oss as [|os oss IH]; intros w Hw t Ht.
  - by apply elem_of_nil in Ht.
  - rewrite loop_traces_cons in Ht.
    destruct (few_sockets_cycle st w Hs Hlen Hw) as [Hnext Hbatch].
    apply elem_of_cons in Ht as [->|Ht].
    + intros fd. simpl. rewrite queried_elem. by rewrite Hbatch.
    + by apply (IH (next_locals st w)).
Qed.

Lemma few_sockets_all_queried_every_cycle_witness :
  ∃ ts, SAL_Socket_CallbackWorker_Run NULL [silent_os; silent_os; silent_os]
          registered_distinct = Done ts registered_distinct ∧
        ∀ t, t ∈ ts → 9 ∈ queried t.
Proof.
  destruct (few_sockets_all_queried_every_cycle NULL
              [silent_os; silent_os; silent_os] registered_distinct)
    as (ts & Hrun & _ & Hall).
  - apply invariant_sound, registered_distinct_invariant.
  - reflexivity.
  - vm_compute. lia.
  - exists ts. split; [exact Hrun|]. intros t Ht. apply (Hall t Ht).
    exists 3%N. split; [|reflexivity].
    vm_compute. apply list_elem_of_further, list_elem_of_here.
Defined.

Lemma filled_nil st n sock it readSet :
  (0 < n)%nat → filled st n [] sock it readSet = (mkLocals NULL it, readSet).
Proof. destruct n; [lia|done]. Qed.

Lemma cycle_at_end st w os :
  (length (asyncSocketList st) ≤ selectIterator w)%nat →
  cycle_trace_of os st w = mkTrace [] [] ∧ selectIterator (next_locals st w) = 0%nat.
Proof.
  intros Hend.
  assert (Hfill : cycle_fill st w = (mkLocals NULL (selectIterator w), FD_ZERO)).
  { unfold cycle_fill. rewrite drop_ge by done.
    apply filled_nil, FD_SETSIZE_pos. }
  unfold cycle_trace_of, next_locals. rewrite Hfill. done.
Qed.

(** X12: when exactly [FD_SETSIZE] sockets lie between the cursor and the
    end of the list, the cycle queries them all and does not reset the
    cursor; the cycle after it finds the list exhausted at once, queries no
    handle and calls no callback, and only then goes back to the first
    item. *)
Theorem full_batch_is_followed_by_empty_cycle (os1 os2 : environment)
    (w : worker_locals) (st : state) :
  registrations_sound st → asyncWorkerRunning st = true →
  length (asyncSocketList st) = (selectIterator w + FD_SETSIZE)%nat →
  ∃ t1, worker_loop [os1; os2] w st = Done [t1; mkTrace [] []] st ∧
        (∀ fd, fd ∈ queried t1 ↔
               ∃ p, p ∈ drop (selectIterator w) (asyncSocketList st) ∧
                    handle_at st p = fd) ∧
        selectIterator (locals_after st 1 w) = length (asyncSocketList st) ∧
        selectIterator (locals_after st 2 w) = 0%nat.
Proof.
  intros Hs Hrun Hlen.
  assert (Hrest : length (drop (selectIterator w) (asyncSocketList st)) = FD_SETSIZE)
    by (rewrite length_drop; lia).
  assert (Hnext : selectIterator (next_locals st w) = length (asyncSocketList st)).
  { rewrite next_locals_cursor by done.
    rewrite bool_decide_eq_false_2 by lia. lia. }
  destruct (cycle_at_end st (next_locals st w) os2) as [Htrace Hreset]; [lia|].
  exists (cycle_trace_of os1 st w).
  split; [|split; [|split]].
  - rewrite worker_loop_done by done.
    rewrite !loop_traces_cons. by rewrite Htrace.
  - intros fd. simpl. rewrite queried_elem. unfold batch_sockets.
    by rewrite take_ge by lia.
  - rewrite locals_after_S. exact Hnext.
  - rewrite !locals_after_S. exact Hreset.
Qed.

Lemma full_batch_is_followed_by_empty_cycle_witness :
  ∃ t1, worker_loop [silent_os; silent_os] (mkLocals NULL 476) crowd
        = Done [t1; mkTrace [] []] crowd.
Proof.
  destruct (full_batch_is_followed_by_empty_cycle silent_os silent_os
              (mkLocals NULL 476) crowd) as (t1 & Hrun & _).
  - apply invariant_sound, crowd_invariant.
  - vm_compute. reflexivity.
  - vm_compute. reflexivity.
  - exists t1. exact Hrun.
Defined.

(** *** Deliveries per socket *)

Lemma delivery_count_app p cs1 cs2 :
  delivery_count p (cs1 ++ cs2) = (delivery_count p cs1 + delivery_count p cs2)%nat.
Proof. unfold delivery_count. by rewrite filter_app, length_app. Qed.

Lemma delivery_count_dispatched os st fd q p s :
  heap st !! q = Some s →
  delivery_count p (dispatched os st fd q)
  = if bool_decide (q = p ∧ handle_at st q = fd) then 1%nat else 0%nat.
Proof.
  intros Hs. unfold dispatched, handle_at, delivery_count. rewrite Hs. simpl.
  case_bool_decide as Hfd.
  - destruct (decide (q = p)) as [->|Hne].
    + rewrite filter_cons_True by done. by rewrite bool_decide_eq_true_2.
    + rewrite filter_cons_False by done.
      by rewrite bool_decide_eq_false_2 by (intros []; done).
  - by rewrite bool_decide_eq_false_2 by (intros []; done).
Qed.

Lemma scan_delivery_count os st fd (l : list N) p :
  NoDup l → (∀ q, q ∈ l → is_Some (heap st !! q)) →
  delivery_count p (l ≫= dispatched os st fd)
  = if bool_decide (p ∈ l ∧ handle_at st p = fd) then 1%nat else 0%nat.
Proof.
  induction 1 as [|q l Hq Hnd IH]; intros Hlive.
  - rewrite bool_decide_eq_false_2; [done|]. intros [Hin _]. by apply elem_of_nil in Hin.
  - rewrite bind_cons, delivery_count_app.
    destruct (Hlive q) as [s Hs]; [left|].
    rewrite (delivery_count_dispatched _ _ _ _ _ s Hs).
    rewrite IH by (intros q' Hq'; apply Hlive; by right).
    destruct (decide (q = p ∧ handle_at st q = fd)) as [[-> Hfd]|Hno].
    + rewrite (bool_decide_eq_true_2 (p = p ∧ _)) by done.
      rewrite (bool_decide_eq_false_2 (p ∈ l ∧ _)) by (intros []; done).
      rewrite bool_decide_eq_true_2; [done|]. split; [left|done].
    + rewrite (bool_decide_eq_false_2 (q = p ∧ _)) by done. simpl.
      rewrite (bool_decide_ext (p ∈ l ∧ handle_at st p = fd)
                               (p ∈ q :: l ∧ handle_at st p = fd)); [done|].
      split.
      * intros [Hin Hfd]. split; [by right|done].
      * intros [Hin Hfd]. split; [|done].
        apply elem_of_cons in Hin as [->|Hin]; [|done]. exfalso. by apply Hno.
Qed.

Lemma cycle_delivery_count os st readSet p :
  NoDup readSet → NoDup (asyncSocketList st) →
  (∀ q, q ∈ asyncSocketList st → is_Some (heap st !! q)) →
  delivery_count p (cycle_calls os st readSet)
  = if bool_decide (p ∈ asyncSocketList st ∧ handle_at st p ∈ readSet)
    then 1%nat else 0%nat.
Proof.
  intros Hrs Hnd Hlive. unfold cycle_calls.
  induction Hrs as [|fd readSet Hfd Hrs IH].
  - rewrite bool_decide_eq_false_2; [done|]. intros [_ Hin]. by apply elem_of_nil in Hin.
  - rewrite bind_cons, delivery_count_app. cbv beta.
    rewrite scan_delivery_count by done. rewrite IH.
    destruct (decide (p ∈ asyncSocketList st ∧ handle_at st p = fd))
      as [[Hin <-]|Hno].
    + rewrite (bool_decide_eq_true_2 (_ ∧ handle_at st p = _)) by done.
      rewrite (bool_decide_eq_false_2 (_ ∧ _ ∈ readSet)) by (intros []; done).
      rewrite bool_decide_eq_true_2; [done|]. split; [done|left].
    + rewrite (bool_decide_eq_false_2 (_ ∧ handle_at st p = _)) by done. simpl.
      rewrite (bool_decide_ext (p ∈ asyncSocketList st ∧ handle_at st p ∈ readSet)
                 (p ∈ asyncSocketList st ∧ handle_at st p ∈ fd :: readSet)); [done|].
      split.
      * intros [Hin Hh]. split; [done|by right].
      * intros [Hin Hh]. split; [done|].
        apply elem_of_cons in Hh as [Hh|Hh]; [|done]. exfalso. by apply Hno.
Qed.

(** X13: in a state whose list entries are distinct live sockets with
    callbacks, a cycle of the worker calls the callback of a socket exactly
    once when the socket is registered and [select] reported its handle
    readable, and not at all otherwise, also when several registered
    sockets share that handle. *)
Theorem one_delivery_per_socket_per_cycle (os : environment) (w : worker_locals)
    (st : state) :
  registrations_sound st →
  ∃ w' t, worker_cycle os w st = Done (w', t) st ∧
          ∀ p, delivery_count p (calls t)
               = if bool_decide (p ∈ asyncSocketList st ∧
                                 handle_at st p ∈ select os (queried t))
                 then 1%nat else 0%nat.
Proof.
  intros Hs. exists (next_locals st w), (cycle_trace_of os st w).
  split; [by apply worker_cycle_done|].
  intros p. simpl. apply cycle_delivery_count.
  - apply select_NoDup, queried_NoDup.
  - apply Hs.
  - intros q Hq. destruct (registered_socket_live st q Hs Hq) as (_ & s & Hsq & _).
    eauto.
Qed.

Lemma one_delivery_per_socket_per_cycle_witness :
  ∃ w' t, worker_cycle silent_os (mkLocals NULL 0) registered_distinct
          = Done (w', t) registered_distinct ∧
          delivery_count 3%N (calls t) = 1%nat.
Proof.
  destruct (one_delivery_per_socket_per_cycle silent_os (mkLocals NULL 0)
              registered_distinct
              (invariant_sound _ registered_distinct_invariant))
    as (w' & t & Hrun & Hcount).
  exists w', t. split; [exact Hrun|].
  rewrite Hcount. rewrite bool_decide_eq_true_2; [reflexivity|].
  assert (Ht : queried t = [0; 9]).
  { vm_compute in Hrun. injection Hrun as _ <-. reflexivity. }
  rewrite Ht. split.
  - vm_compute. apply list_elem_of_further, list_elem_of_here.
  - vm_compute. apply list_elem_of_further, list_elem_of_here.
Defined.

(** *** A registered socket without a callback *)

Lemma fill_readSet_done_live st n w readSet :
  entries_live st →
  fill_readSet n w readSet st
  = Done (filled st n (drop (selectIterator w) (asyncSocketList st))
                 (socket w) (selectIterator w) readSet) st.
Proof.
  intros Hlive. revert w readSet.
  induction n as [|n IH]; intros [sock it] readSet; simpl; [done|].
  rewrite (bind_done _ _ _ _ _ (IterateNext_done st it)).
  destruct (asyncSocketList st !! it) as [p|] eqn:Hit; simpl.
  - destruct (Hlive p) as (Hp & s & Hs); [by eapply list_elem_of_lookup_2|].
    apply is_null_false in Hp. rewrite Hp.
    rewrite (bind_done _ _ st s st) by (unfold load; by rewrite Hs).
    rewrite IH. simpl. rewrite (drop_S _ _ _ Hit). simpl.
    unfold handle_at. by rewrite Hs.
  - apply lookup_ge_None_1 in Hit. by rewrite drop_ge.
Qed.

Lemma dispatch_entry_outcome os st fd q s :
  q ≠ NULL → heap st !! q = Some s →
  dispatch_entry os fd q st
  = if bool_decide (RawSocket s = fd) then
      if is_null (ReadCallback s) then Failed AccessViolation st
      else Done [mkCall q (ReadCallback s) asyncSocketBuffer (read_result os s)
                        (ReadCallbackState s)] st
    else Done [] st.
Proof.
  intros Hq Hs. unfold dispatch_entry.
  rewrite (bind_done _ _ st s st) by (unfold load; by rewrite Hs).
  case_bool_decide; [|done].
  rewrite (bind_done _ _ _ _ _ (Read_done os st q s Hq Hs)).
  by destruct (is_null (ReadCallback s)).
Qed.

Lemma for_each_fails {A} (body : A → M (list callback_call)) (l : list A) st e :
  (∀ a, a ∈ l → (∃ c, body a st = Done c st) ∨ body a st = Failed e st) →
  (∃ a, a ∈ l ∧ body a st = Failed e st) →
  for_each body l st = Failed e st.
Proof.
  induction l as [|a l IH]; intros Hall (b & Hb & Hfail).
  - by apply elem_of_nil in Hb.
  - simpl. destruct (Hall a) as [[c Hc]|Hc]; [left| |].
    + rewrite (bind_done _ _ _ _ _ Hc).
      apply bind_failed. apply IH.
      * intros a' Ha'. apply Hall. by right.
      * apply elem_of_cons in Hb as [->|Hb]; [congruence|eauto].
    + by apply bind_failed.
Qed.

Lemma scan_outcome os st fd (l : list N) :
  (∀ q, q ∈ l → q ≠ NULL ∧ is_Some (heap st !! q)) →
  (∃ c, for_each (dispatch_entry os fd) l st = Done c st) ∨
  for_each (dispatch_entry os fd) l st = Failed AccessViolation st.
Proof.
  induction l as [|q l IH]; intros Hl; [left; by eexists|].
  simpl. destruct (Hl q) as (Hq & s & Hs); [left|].
  pose proof (dispatch_entry_outcome os st fd q s Hq Hs) as Hd.
  destruct IH as [[cs Hcs]|Hfail]; [intros q' Hq'; apply Hl; by right| |].
  - case_bool_decide; [destruct (is_null (ReadCallback s))|].
    + right. by apply bind_failed.
    + left. rewrite (bind_done _ _ _ _ _ Hd), (bind_done _ _ _ _ _ Hcs). by eexists.
    + left. rewrite (bind_done _ _ _ _ _ Hd), (bind_done _ _ _ _ _ Hcs). by eexists.
  - right. case_bool_decide; [destruct (is_null (ReadCallback s))|].
    + by apply bind_failed.
    + rewrite (bind_done _ _ _ _ _ Hd). by apply bind_failed.
    + rewrite (bind_done _ _ _ _ _ Hd). by apply bind_failed.
Qed.

Lemma null_callback_crashes_cycle os w st p s :
  entries_live st →
  p ∈ batch_sockets st w →
  heap st !! p = Some s → ReadCallback s = NULL →
  readable os (RawSocket s) = true →
  worker_cycle os w st = Failed AccessViolation st.
Proof.
  intros Hlive Hbatch Hs Hnull Hready.
  pose proof (batch_sockets_registered st w p Hbatch) as Hp.
  unfold worker_cycle.
  rewrite (bind_done _ _ _ _ _ (fill_readSet_done_live st FD_SETSIZE w FD_ZERO Hlive)).
  fold (cycle_fill st w). apply bind_failed.
  assert (Hscan : ∀ fd,
            (∃ c, for_each (dispatch_entry os fd) (asyncSocketList st) st = Done c st) ∨
            for_each (dispatch_entry os fd) (asyncSocketList st) st
            = Failed AccessViolation st)
    by (intros fd; by apply scan_outcome).
  apply for_each_fails.
  - intros fd _. rewrite (bind_done _ _ st st st) by done. apply Hscan.
  - exists (RawSocket s). split.
    + unfold select. apply list_elem_of_filter. split; [done|].
      apply queried_elem. exists p. split; [done|]. unfold handle_at. by rewrite Hs.
    + rewrite (bind_done _ _ st st st) by done.
      apply for_each_fails.
      * intros q Hq. destruct (Hlive q Hq) as (Hqn & sq & Hsq).
        rewrite (dispatch_entry_outcome os st _ q sq Hqn Hsq).
        case_bool_decide; [|eauto]. destruct (is_null (ReadCallback sq)); eauto.
      * exists p. split; [done|]. destruct (Hlive p Hp) as (Hpn & _).
        rewrite (dispatch_entry_outcome os st _ p s Hpn Hs).
        rewrite bool_decide_eq_true_2 by done.
        apply is_null_true in Hnull. by rewrite Hnull.
Qed.

(** X14: [SAL_Socket_Init] called on a registered socket leaves the socket
    in [asyncSocketList] with a null [ReadCallback] and the handle 0.  A
    later cycle of the worker that has the socket in its batch and finds
    handle 0 readable calls the null callback: the dispatch loop has no
    test on [ReadCallback]. *)
Theorem Init_of_registered_socket_crashes_worker (os : environment)
    (w : worker_locals) (st st1 : state) (p : pointer) :
  registrations_sound st →
  p ∈ batch_sockets st w →
  SAL_Socket_Init p st = Done tt st1 →
  readable os 0 = true →
  p ∈ asyncSocketList st1 ∧
  heap st1 !! p = Some SAL_Socket_Init_value ∧
  worker_cycle os w st1 = Failed AccessViolation st1.
Proof.
  intros Hs Hbatch Hinit Hready.
  pose proof (batch_sockets_registered st w p Hbatch) as Hp.
  destruct (registered_socket_live st p Hs Hp) as (Hpn & s & Hsp & _).
  rewrite (Init_done p st s Hsp) in Hinit. injection Hinit as <-.
  split; [done|]. split; [apply lookup_insert_eq|].
  apply (null_callback_crashes_cycle os w _ p SAL_Socket_Init_value).
  - intros q Hq. destruct (registered_socket_live st q Hs Hq) as (Hqn & sq & Hsq & _).
    split; [done|]. simpl. destruct (decide (p = q)) as [->|Hne].
    + rewrite lookup_insert_eq. eauto.
    + rewrite lookup_insert_ne by done. eauto.
  - exact Hbatch.
  - apply lookup_insert_eq.
  - reflexivity.
  - exact Hready.
Qed.

Lemma Init_of_registered_socket_crashes_worker_witness :
  worker_cycle silent_os (mkLocals NULL 0)
    (state_of (SAL_Socket_Init 3%N registered_distinct))
  = Failed AccessViolation (state_of (SAL_Socket_Init 3%N registered_distinct)).
Proof.
  apply (Init_of_registered_socket_crashes_worker silent_os (mkLocals NULL 0)
           registered_distinct _ 3%N).
  - apply invariant_sound, registered_distinct_invariant.
  - vm_compute. apply list_elem_of_further, list_elem_of_here.
  - vm_compute. reflexivity.
  - reflexivity.
Defined.

(** *** When the calls return *)

(** X15: [SAL_Socket_SetReadCallback] returns exactly when socket, callback
    and state are not null and the socket is live; [SAL_Socket_Close] and
    [SAL_Socket_UnsetSocketCallback] return exactly when the socket is not
    null and live, whether or not it is registered, connected or already
    closed.  In every other case the call stops on an [assert] or on the
    access to the socket. *)
Theorem registration_calls_return_conditions (socket callback cstate : pointer)
    (st : state) :
  ((∃ st', SAL_Socket_SetReadCallback socket callback cstate st = Done tt st') ↔
   socket ≠ NULL ∧ callback ≠ NULL ∧ cstate ≠ NULL ∧ is_Some (heap st !! socket)) ∧
  ((∃ st', SAL_Socket_UnsetSocketCallback socket st = Done tt st') ↔
   socket ≠ NULL ∧ is_Some (heap st !! socket)) ∧
  ((∃ st', SAL_Socket_Close socket st = Done tt st') ↔
   socket ≠ NULL ∧ is_Some (heap st !! socket)).
Proof.
  split; [|split]; split.
  - intros [st' H].
    destruct (SetReadCallback_done_inv _ _ _ _ _ H) as (H1 & H2 & H3 & s & Hs & _).
    eauto.
  - intros (H1 & H2 & H3 & s & Hs). eexists. by apply (SetReadCallback_done _ _ _ _ s).
  - intros [st' H].
    destruct (UnsetSocketCallback_done_inv _ _ _ H) as (H1 & s & Hs & _). eauto.
  - intros (H1 & s & Hs). eexists. by apply (UnsetSocketCallback_done _ _ s).
  - intros [st' H]. destruct (Close_done_inv _ _ _ H) as (H1 & s & Hs & _). eauto.
  - intros (H1 & s & Hs). eexists. by apply (Close_done _ _ s).
Qed.

(** *** The order of the callbacks *)

Lemma foldl_FD_SET_distinct st (b : list N) readSet :
  NoDup (readSet ++ (handle_at st <$> b)) →
  (length readSet + length b ≤ FD_SETSIZE)%nat →
  foldl (λ acc p, FD_SET (handle_at st p) acc) readSet b
  = readSet ++ (handle_at st <$> b).
Proof.
  revert readSet. induction b as [|p b IH]; intros readSet Hnd Hlen; simpl in *.
  - by rewrite app_nil_r.
  - assert (Hset : FD_SET (handle_at st p) readSet = readSet ++ [handle_at st p]).
    { unfold FD_SET. apply NoDup_app in Hnd as (_ & Hout & _).
      rewrite bool_decide_eq_false_2
        by (intros Hin; apply (Hout _ Hin); left).
      rewrite bool_decide_eq_true_2 by lia. done. }
    rewrite Hset, IH.
    + by rewrite <- app_assoc.
    + by rewrite <- app_assoc.
    + rewrite length_app. simpl. lia.
Qed.

Lemma dispatched_other os st fd q :
  handle_at st q ≠ fd → dispatched os st fd q = [].
Proof.
  unfold dispatched, handle_at. destruct (heap st !! q); simpl; [|done].
  intros Hne. by rewrite bool_decide_eq_false_2.
Qed.

Lemma scan_one os st (l : list N) p :
  NoDup l →
  (∀ x y, x ∈ l → y ∈ l → handle_at st x = handle_at st y → x = y) →
  p ∈ l →
  l ≫= dispatched os st (handle_at st p) = dispatched os st (handle_at st p) p.
Proof.
  induction 1 as [|x l Hx Hnd IH]; intros Hdist Hp.
  - by apply elem_of_nil in Hp.
  - rewrite bind_cons. destruct (decide (x = p)) as [->|Hne].
    + rewrite (scan_none os st _ l); [by rewrite app_nil_r|].
      intros q Hq Heq. apply Hx.
      rewrite <- (Hdist q p); [done|by right|left|done].
    + apply elem_of_cons in Hp as [->|Hp]; [done|].
      rewrite dispatched_other.
      * apply IH; [|done]. intros y z Hy Hz. apply Hdist; by right.
      * intros Heq. apply Hne. apply Hdist; [left|by right|done].
Qed.

Lemma calls_of_batch os st (b : list N) :
  NoDup (asyncSocketList st) → distinct_handles st →
  (∀ p, p ∈ b → p ∈ asyncSocketList st) →
  filter (λ fd, readable os fd = true) (handle_at st <$> b)
    ≫= (λ fd, asyncSocketList st ≫= dispatched os st fd)
  = filter (λ p, readable os (handle_at st p) = true) b
      ≫= (λ p, dispatched os st (handle_at st p) p).
Proof.
  intros Hnd Hdist. induction b as [|p b IH]; intros Hb; [done|].
  rewrite fmap_cons.
  assert (Hrest : ∀ q, q ∈ b → q ∈ asyncSocketList st)
    by (intros q Hq; apply Hb; by right).
  destruct (readable os (handle_at st p)) eqn:E.
  - rewrite !filter_cons_True by done. rewrite !bind_cons.
    rewrite IH by done. f_equal.
    apply scan_one; [done|exact Hdist|apply Hb; left].
  - rewrite !filter_cons_False by (by rewrite E). by apply IH.
Qed.

Lemma entries_of_calls os st (b : list N) :
  (∀ p, p ∈ b → is_Some (heap st !! p)) →
  entry <$> (b ≫= λ p, dispatched os st (handle_at st p) p) = b.
Proof.
  induction b as [|p b IH]; intros Hb; [done|].
  rewrite bind_cons, fmap_app, IH by (intros q Hq; apply Hb; by right).
  destruct (Hb p) as [s Hs]; [left|].
  unfold dispatched, handle_at. rewrite Hs. simpl.
  by rewrite bool_decide_eq_true_2.
Qed.

(** X16: in a state whose list entries are distinct live sockets with
    callbacks and no two registered sockets share a handle, a cycle of the
    worker puts the handles of its batch into the read set in list order,
    and calls back exactly the sockets of the batch whose handle [select]
    reported readable, each once, in the order of the list. *)
Theorem callbacks_follow_list_order (os : environment) (w : worker_locals)
    (st : state) :
  registrations_sound st → distinct_handles st →
  ∃ w' t, worker_cycle os w st = Done (w', t) st ∧
          queried t = (handle_at st <$> batch_sockets st w) ∧
          entry <$> calls t
          = filter (λ p, readable os (handle_at st p) = true) (batch_sockets st w).
Proof.
  intros Hs Hdist. exists (next_locals st w), (cycle_trace_of os st w).
  split; [by apply worker_cycle_done|].
  assert (Hsub : ∀ p, p ∈ batch_sockets st w → p ∈ asyncSocketList st)
    by apply batch_sockets_registered.
  assert (Hnd : NoDup (batch_sockets st w)).
  { apply (sublist_NoDup (batch_sockets st w) (asyncSocketList st));
      [exact (proj1 Hs)|].
    unfold batch_sockets.
    etrans; [apply sublist_take|apply sublist_drop]. }
  assert (Hq : (cycle_fill st w).2 = (handle_at st <$> batch_sockets st w)).
  { rewrite cycle_fill_queried. rewrite foldl_FD_SET_distinct; [done| |].
    - simpl. apply NoDup_fmap_2_strong; [|done].
      intros x y Hx Hy. apply Hdist; by apply Hsub.
    - pose proof (batch_sockets_length st w). simpl. lia. }
  split; [exact Hq|]. simpl. rewrite Hq. unfold cycle_calls, select.
  rewrite calls_of_batch; [|apply Hs|done|done].
  apply entries_of_calls. intros p Hp.
  apply list_elem_of_filter in Hp as [_ Hp].
  destruct (registered_socket_live st p Hs (Hsub p Hp)) as (_ & s & Hsp & _). eauto.
Qed.

Lemma callbacks_follow_list_order_witness :
  ∃ w' t, worker_cycle silent_os (mkLocals NULL 0) registered_distinct
          = Done (w', t) registered_distinct ∧
          entry <$> calls t = [1%N; 3%N].
Proof.
  destruct (callbacks_follow_list_order silent_os (mkLocals NULL 0)
              registered_distinct
              (invariant_sound _ registered_distinct_invariant)
              registered_distinct_handles)
    as (w' & t & Hrun & _ & Hcalls).
  exists w', t. split; [exact Hrun|]. rewrite Hcalls. vm_compute. reflexivity.
Defined.
